(** * Palette generator (src/src/App.jsx): colour conversion, palette
      generation and palette state updates

    A shallow embedding of the pure core of [App.jsx].

    Conventions of the embedding.
    - A JavaScript Number that holds a real quantity (hue, saturation,
      lightness, contrast ratio, a value of [Math.random]) is an exact
      rational [Q]: IEEE rounding of the double arithmetic is not modelled.
    - A Number that holds an integer or NaN (a colour channel, a result of
      [parseInt]) is a [jsint]; an index into an array is an integer.
    - A JavaScript string is a [string] of code units below 256; an array is
      a [list]; reading an array out of range gives [None] (JavaScript's
      [undefined]).
    - [Math.random] is a sequence [nat -> Q] of the values it will return;
      every call takes the head and leaves the tail.
    - [Math.pow], whose values are not rational, is a parameter of the
      functions that call it; what a theorem needs of it is a hypothesis.
    - On integers below 2^53 in size the [+] and [%] of the code are exact
      and are those of the embedding; on fractional values the code rounds
      where the embedding does not. *)

From Stdlib Require Import ZArith QArith Qround Qabs Qminmax Lqa Lia Bool.
From Stdlib Require Import Ascii String HexString DecimalString.
From stdpp Require Import base list.

Local Open Scope Q_scope.

(** ** Numbers *)

Module Num.

(** [Math.floor] and [Math.round] (round half up: floor (x + 1/2)). *)
Definition floor (x : Q) : Z := Qfloor x.
Definition round (x : Q) : Z := Qfloor (x + (1 # 2)).

(** Truncation toward zero, the integer quotient behind JavaScript's [%]. *)
Definition trunc (x : Q) : Z := Z.quot (Qnum x) (Zpos (Qden x)).

(** [a % b]: the remainder has the sign of the dividend. *)
Definition rem (a b : Q) : Q := a - b * inject_Z (trunc (a / b)).

(** [const clamp = (v, min=0, max=1) => Math.min(max, Math.max(min, v))] *)
Definition clamp (v mn mx : Q) : Q := Qmin mx (Qmax mn v).

(** [a < b] as the test of a conditional. *)
Definition ltb (a b : Q) : bool := negb (Qle_bool b a).

(** [a >= b] as the test of a conditional. *)
Definition geb (a b : Q) : bool := Qle_bool b a.

End Num.

(** An integer-valued Number, or NaN. *)
Inductive jsint : Type :=
| NaN
| Int (z : Z).

(** ** hslToRgb *)

(** [h = (h % 360 + 360) % 360] *)
Definition normHue (h : Q) : Q := Num.rem (Num.rem h 360 + 360) 360.

Definition hslToRgb (h s l : Q) : list jsint :=
  let h := normHue h in
  let c := (1 - Qabs (2 * l - 1)) * s in
  let x := c * (1 - Qabs (Num.rem (h / 60) 2 - 1)) in
  let m := l - c / 2 in
  let '(r, g, b) :=
    if Num.ltb h 60 then (c, x, 0)
    else if Num.ltb h 120 then (x, c, 0)
    else if Num.ltb h 180 then (0, c, x)
    else if Num.ltb h 240 then (0, x, c)
    else if Num.ltb h 300 then (x, 0, c)
    else (c, 0, x) in
  [Int (Num.round ((r + m) * 255));
   Int (Num.round ((g + m) * 255));
   Int (Num.round ((b + m) * 255))].

(** ** Strings: pad, rgbToHex, hexToRgb *)

Local Open Scope string_scope.

Definition code (a : ascii) : N := N_of_ascii a.

(** What [.] of a regular expression refuses: LF and CR (the line
    terminators below 256). *)
Definition isLineTerminator (a : ascii) : bool :=
  (code a =? 10)%N || (code a =? 13)%N.

(** What [parseInt] skips at the start: TAB, LF, VT, FF, CR, SP, NBSP. *)
Definition isWhiteSpace (a : ascii) : bool :=
  ((9 <=? code a)%N && (code a <=? 13)%N) || (code a =? 32)%N || (code a =? 160)%N.

(** [n.toString(16)] *)
Definition toString16 (n : jsint) : string :=
  match n with
  | NaN => "NaN"
  | Int Z0 => "0"
  | Int (Zpos p) => HexString.Raw.of_pos p ""
  | Int (Zneg p) => String "-" (HexString.Raw.of_pos p "")
  end.

(** [s.padStart(target, fill)] for a one-character [fill]. *)
Definition padStart (target : nat) (fill : ascii) (s : string) : string :=
  String.concat "" (List.repeat (String fill "") (target - String.length s)) ++ s.

(** [const pad = (n) => n.toString(16).padStart(2, "0")] *)
Definition pad (n : jsint) : string := padStart 2 "0" (toString16 n).

(** [function rgbToHex([r,g,b])]: [None] is the TypeError of [pad] on a
    channel the array does not have. *)
Definition rgbToHex (rgb : list jsint) : option string :=
  match rgb with
  | r :: g :: b :: _ => Some ("#" ++ pad r ++ pad g ++ pad b)
  | _ => None
  end.

(** [hex.replace('#','')]: the first ['#'] is removed, wherever it is. *)
Fixpoint removeFirstHash (s : string) : string :=
  match s with
  | "" => ""
  | String a s' => if Ascii.eqb a "#" then s' else String a (removeFirstHash s')
  end.

(** The matches of [/.{1,2}/g], left to right: at a character [.] accepts,
    that character and the next one if [.] accepts it too; a line terminator
    is skipped. *)
Fixpoint groups (s : string) : list string :=
  match s with
  | "" => []
  | String a s1 =>
      if isLineTerminator a then groups s1
      else match s1 with
           | "" => [String a ""]
           | String b s2 =>
               if isLineTerminator b then String a "" :: groups s2
               else String a (String b "") :: groups s2
           end
  end.

(** [s.match(/.{1,2}/g)]: [None] is [null], returned when nothing matches. *)
Definition matchGroups (s : string) : option (list string) :=
  match groups s with
  | [] => None
  | m => Some m
  end.

Fixpoint trimStart (s : string) : string :=
  match s with
  | "" => ""
  | String a s' => if isWhiteSpace a then trimStart s' else s
  end.

Definition splitSign (s : string) : Z * string :=
  match s with
  | String "-" s' => ((-1)%Z, s')
  | String "+" s' => (1%Z, s')
  | _ => (1%Z, s)
  end.

Definition stripPrefix (s : string) : string :=
  match s with
  | String "0" (String "x" s') => s'
  | String "0" (String "X" s') => s'
  | _ => s
  end.

(** The value of the longest prefix of hexadecimal digits; [None] when the
    first character is not one. *)
Fixpoint digitsPrefix (s : string) (acc : option N) : option N :=
  match s with
  | "" => acc
  | String a s' =>
      match HexString.ascii_to_digit a with
      | Some d => digitsPrefix s' (Some (16 * default 0 acc + d)%N)
      | None => acc
      end
  end.

(** [parseInt(x, 16)]: leading white space, a sign, a [0x] prefix, then the
    longest run of hexadecimal digits; NaN when that run is empty. The value
    is exact (hexToRgb passes at most two characters) and [-0] is read as
    [0], which [pad] prints alike. *)
Definition parseInt16 (x : string) : jsint :=
  let '(sign, s) := splitSign (trimStart x) in
  match digitsPrefix (stripPrefix s) None with
  | None => NaN
  | Some n => Int (sign * Z.of_N n)
  end.

Definition hexToRgb (hex : string) : list jsint :=
  match matchGroups (removeFirstHash hex) with
  | None => [Int 0; Int 0; Int 0]
  | Some m => parseInt16 <$> m
  end.

(** ** generatePalette *)

(** The values [Math.random] will return, in order. *)
Definition rand : Type := nat -> Q.

Definition Math_random (r : rand) : Q * rand := (r 0%nat, fun n => r (S n)).

(** [new Array(n).fill(0).map(()=>Math.floor(Math.random()*360))] *)
Fixpoint randomHues (n : nat) (r : rand) : list Q * rand :=
  match n with
  | O => ([], r)
  | S n' =>
      let '(u, r) := Math_random r in
      let '(hs, r) := randomHues n' r in
      (inject_Z (Num.floor (u * 360)) :: hs, r)
  end.

(** The [switch (scheme)] that builds [hues]. *)
Definition hues (scheme : string) (baseHue : Q) (r : rand) : list Q * rand :=
  if scheme =? "complementary" then
    ([baseHue; Num.rem (baseHue + 180) 360; Num.rem (baseHue + 30) 360;
      Num.rem (baseHue + 210) 360; Num.rem (baseHue + 350) 360], r)
  else if scheme =? "triadic" then
    ([baseHue; Num.rem (baseHue + 120) 360; Num.rem (baseHue + 240) 360;
      Num.rem (baseHue + 60) 360; Num.rem (baseHue + 300) 360], r)
  else if scheme =? "analogous" then
    ((fun h => Num.rem (Num.rem h 360 + 360) 360) <$>
       [baseHue - 30; baseHue - 10; baseHue; baseHue + 10; baseHue + 30], r)
  else if scheme =? "monochrome" then
    let base := baseHue in ([base; base; base; base; base], r)
  else randomHues 5 r.

(** [ls] *)
Definition lightnesses (scheme : string) (l : Q) : list Q :=
  if scheme =? "monochrome" then [0.25; 0.4; 0.55; 0.7; 0.85]
  else (fun x => Num.clamp x 0.15 0.9) <$>
         [l - 0.15; l - 0.05; l; l + 0.08; l + 0.16].

(** [ss] *)
Definition saturations (scheme : string) (s : Q) : list Q :=
  if scheme =? "monochrome" then [0.15; 0.3; 0.45; 0.6; 0.75]
  else replicate 5 s.

(** [hues.map((h, i) => rgbToHex(hslToRgb(h, clamp(ss[i],0,1), clamp(ls[i],0,1))))].
    [None] stands for a run that leaves the embedding: a slot [ss[i]] or
    [ls[i]] that does not exist, or the TypeError of [rgbToHex]. *)
Definition colors (hs ss ls : list Q) : option (list string) :=
  mapM id (imap (fun i h =>
    s ← ss !! i; l ← ls !! i;
    rgbToHex (hslToRgb h (Num.clamp s 0 1) (Num.clamp l 0 1))) hs).

(** [function generatePalette({ baseHue = Math.floor(Math.random()*360),
    scheme = 'random' })]; an argument [None] is a property left out. *)
Definition generatePalette (baseHue : option Q) (scheme : option string)
    (r : rand) : option (list string) * rand :=
  let '(baseHue, r) :=
    match baseHue with
    | Some b => (b, r)
    | None => let '(u, r) := Math_random r in (inject_Z (Num.floor (u * 360)), r)
    end in
  let scheme := default "random" scheme in
  let '(u, r) := Math_random r in
  let s := 0.5 + u * 0.4 in
  let '(u, r) := Math_random r in
  let l := 0.45 + u * 0.2 in
  let '(hs, r) := hues scheme baseHue r in
  let ls := lightnesses scheme l in
  let ss := saturations scheme s in
  (colors hs ss ls, r).

(** ** The palette state of the component *)

(** A slot of the [palette] array: [None] is [undefined]. *)
Definition slot : Type := option string.

(** [a[k]] for an integer [k]. *)
Definition index {A} (a : list A) (k : Z) : option A :=
  if (k <? 0)%Z then None else a !! Z.to_nat k.

(** [regenerate]: the new palette that [setPalette] stores, for the current
    palette [p]. A missing [locks[i]] is falsy. *)
Definition regenerate (baseHue : Q) (scheme : string) (locks : list bool)
    (r : rand) (p : list slot) : option (list slot) * rand :=
  let base := inject_Z (Num.floor baseHue) in
  let '(fresh, r) := generatePalette (Some base) (Some scheme) r in
  (fresh ← fresh;
   Some (imap (fun i c => if default false (locks !! i) then c else fresh !! i) p), r).

(** [updateColor(i, hex)]: the new palette that [setPalette] stores. *)
Definition updateColor {A} (i : nat) (hex : A) (p : list A) : list A :=
  imap (fun idx c => if (idx =? i)%nat then hex else c) p.

(** [a ?? b] *)
Definition nullish {A} (a b : option A) : option A :=
  match a with
  | Some v => Some v
  | None => b
  end.

(** [const fg = palette[fgIndex-1] ?? palette[0]] *)
Definition fg (palette : list slot) (fgIndex : Z) : slot :=
  nullish (mjoin (index palette (fgIndex - 1))) (mjoin (index palette 0)).

(** [const bg = palette[bgIndex-1] ?? palette[palette.length-1]] *)
Definition bg (palette : list slot) (bgIndex : Z) : slot :=
  nullish (mjoin (index palette (bgIndex - 1)))
          (mjoin (index palette (Z.of_nat (length palette) - 1))).

(** [const wcag = contrast >= 7 ? 'AAA' : contrast >= 4.5 ? 'AA' :
    contrast >= 3 ? 'AA Large' : 'Fail'] *)
Definition wcag (contrast : Q) : string :=
  if Num.geb contrast 7 then "AAA"
  else if Num.geb contrast 4.5 then "AA"
  else if Num.geb contrast 3 then "AA Large"
  else "Fail".

(** ** Vocabulary of the specification *)

(** A hexadecimal digit, of either case. *)
Definition isHexDigit (a : ascii) : bool :=
  match HexString.ascii_to_digit a with
  | Some _ => true
  | None => false
  end.

(** ['#'] followed by six hexadecimal digits. *)
Definition validHex (x : string) : bool :=
  match x with
  | String "#" ds => (String.length ds =? 6)%nat && forallb isHexDigit (list_ascii_of_string ds)
  | _ => false
  end.

(** Case normalisation: [A-Z] to [a-z]. *)
Definition lowerChar (a : ascii) : ascii :=
  if ((65 <=? code a)%N && (code a <=? 90)%N)%bool then ascii_of_N (code a + 32) else a.

Fixpoint toLowerCase (s : string) : string :=
  match s with
  | "" => ""
  | String a s' => String (lowerChar a) (toLowerCase s')
  end.

(** The content the specification speaks of: the input without an optional
    leading ['#']. *)
Definition stripLeadingHash (x : string) : string :=
  match x with
  | String "#" s => s
  | _ => x
  end.

(** Malformed in the specification's sense: the content has an odd length or
    holds a character that is not a hexadecimal digit. *)
Definition malformed (x : string) : bool :=
  let c := stripLeadingHash x in
  Nat.odd (String.length c) || negb (forallb isHexDigit (list_ascii_of_string c)).



(** A hue [h] of the [hues] array stands for the integer [k] modulo 360:
    that is the hue hslToRgb works with after its first line. *)
Definition sameHue (h : Q) (k : Z) : Prop :=
  (normHue h == inject_Z (k mod 360))%Q.

(** The intermediate values of hslToRgb: [c] for a saturation and a
    lightness, [x] for a normalised hue and [c], and [m]. *)
Definition chroma (s l : Q) : Q := ((1 - Qabs (2 * l - 1)) * s)%Q.

Definition secondary (h c : Q) : Q :=
  (c * (1 - Qabs (Num.rem (h / 60) 2 - 1)))%Q.

Definition lift (l c : Q) : Q := (l - c / 2)%Q.

(** What one aligned pair of hexadecimal digits goes through in the round
    trip: both are characters of a group, neither is ['#'], and the padded
    value of the pair is the pair in lower case. *)
Definition pairCheck (a b : ascii) : bool :=
  negb (isLineTerminator a) && negb (isLineTerminator b)
  && negb (Ascii.eqb a "#")
  && (pad (parseInt16 (String a (String b "")))
      =? String (lowerChar a) (String (lowerChar b) "")).

(** A random source as [Math.random] promises it: values in [0,1). *)
Definition validRandom (r : rand) : Prop := forall n, 0 <= r n /\ r n < 1.

(** ** The rest of the module: contrast, locks, input, gradient stops *)

(** [randomizeBaseHue]: the base hue that [setBaseHue] stores,
    [Math.floor(Math.random()*360)]. *)
Definition randomizeBaseHue (r : rand) : Q * rand :=
  let '(u, r) := Math_random r in (inject_Z (Num.floor (u * 360)%Q), r).

(** Channel [k] of a destructured array as a number: [None] is NaN, which is
    what arithmetic makes of NaN and of the [undefined] of a missing slot. *)
Definition channel (rgb : list jsint) (k : nat) : option Q :=
  match rgb !! k with
  | Some (Int z) => Some (inject_Z z)
  | _ => None
  end.

(** [v <= 0.03928 ? v/12.92 : Math.pow((v+0.055)/1.055, 2.4)]. [Math.pow]
    has no rational value in general: it is a parameter of the embedding. *)
Definition linearize (Math_pow : Q -> Q -> Q) (v : Q) : Q :=
  (if Qle_bool v 0.03928 then v / 12.92
   else Math_pow ((v + 0.055) / 1.055) 2.4)%Q.

(** [function relativeLuminance([r,g,b])]: [None] is NaN. *)
Definition relativeLuminance (Math_pow : Q -> Q -> Q) (rgb : list jsint)
    : option Q :=
  r ← channel rgb 0; g ← channel rgb 1; b ← channel rgb 2;
  let srgb := linearize Math_pow <$> ((fun v => v / 255)%Q <$> [r; g; b]) in
  s0 ← srgb !! 0%nat; s1 ← srgb !! 1%nat; s2 ← srgb !! 2%nat;
  Some (0.2126 * s0 + 0.7152 * s1 + 0.0722 * s2)%Q.

(** [function contrastRatio(hex1, hex2)]: [None] is NaN. *)
Definition contrastRatio (Math_pow : Q -> Q -> Q) (hex1 hex2 : string)
    : option Q :=
  L1 ← relativeLuminance Math_pow (hexToRgb hex1);
  L2 ← relativeLuminance Math_pow (hexToRgb hex2);
  let lighter := Qmax L1 L2 in
  let darker := Qmin L1 L2 in
  Some ((lighter + 0.05) / (darker + 0.05))%Q.

(** What the component computes for its contrast box: [contrast] and [wcag],
    or the TypeError of [hex.replace] when [fg] or [bg] is [undefined]. Every
    comparison with NaN is false, so NaN is classified "Fail". *)
Inductive contrastBox : Type :=
| TypeError
| Contrast (contrast : option Q) (label : string).

Definition renderContrast (Math_pow : Q -> Q -> Q) (palette : list slot)
    (fgIndex bgIndex : Z) : contrastBox :=
  match fg palette fgIndex, bg palette bgIndex with
  | Some f, Some b =>
      let contrast := contrastRatio Math_pow f b in
      Contrast contrast (match contrast with
                         | Some c => wcag c
                         | None => "Fail"
                         end)
  | _, _ => TypeError
  end.

(** [setLocks(ls => ls.map((v,idx)=> idx===i ? !v : v))] *)
Definition toggleLock (i : nat) (ls : list bool) : list bool :=
  imap (fun idx v => if (idx =? i)%nat then negb v else v) ls.

(** [e.target.value.startsWith('#') ? e.target.value : `#${e.target.value}`] *)
Definition withHash (value : string) : string :=
  match value with
  | String "#" _ => value
  | _ => String "#" value
  end.

(** The [onChange] of the colour input of slot [i]. *)
Definition onColorInput (i : nat) (value : string) (p : list slot) : list slot :=
  updateColor i (Some (withHash value)) p.

(** The offsets [i/(stops-1)] that the gradient effect passes to
    [addColorStop], one per colour; [None] is the NaN of [0/0]. *)
Definition stopOffsets {A} (palette : list A) : list (option Q) :=
  let stops := length palette in
  imap (fun i _ =>
          if (stops - 1 =? 0)%nat then None
          else Some (inject_Z (Z.of_nat i) / (inject_Z (Z.of_nat stops) - 1))%Q)
       palette.

(** ** Serialization *)

(** The line feed of ['\n']. *)
Definition nl : ascii := "010"%char.

(** The double quote. *)
Definition dquote : ascii := "034"%char.

(** A number of a template literal: its decimal digits. *)
Definition decimal (n : nat) : string := NilZero.string_of_uint (Nat.to_uint n).

(** A slot of a template literal: an [undefined] slot reads "undefined". *)
Definition slotText (c : slot) : string :=
  match c with
  | Some hex => hex
  | None => "undefined"
  end.

(** [function toCssVars(palette)]:
    [`:root{\n${palette.map((hex, i)=>`  --color-${i+1}: ${hex};`).join('\n')}\n}`] *)
Definition toCssVars (palette : list slot) : string :=
  ":root{" ++ String nl
    (String.concat (String nl "")
       (imap (fun i hex => "  --color-" ++ decimal (i + 1) ++ ": "
                           ++ slotText hex ++ ";") palette)
     ++ String nl "}").

(** One character of a JSON string: the short escapes, [\u00xx] for the
    other control characters, the character itself otherwise. *)
Definition quoteChar (a : ascii) : string :=
  if (code a =? 8)%N then "\b"
  else if (code a =? 9)%N then "\t"
  else if (code a =? 10)%N then "\n"
  else if (code a =? 12)%N then "\f"
  else if (code a =? 13)%N then "\r"
  else if (code a =? 34)%N then String "\" (String dquote "")
  else if (code a =? 92)%N then "\\"
  else if (code a <? 32)%N then "\u00" ++ pad (Int (Z.of_N (code a)))
  else String a "".

Fixpoint quoteBody (s : string) : string :=
  match s with
  | "" => ""
  | String a s' => quoteChar a ++ quoteBody s'
  end.

(** A string as [JSON.stringify] prints it. *)
Definition quoteJSON (s : string) : string :=
  String dquote (quoteBody s ++ String dquote "").

(** An element of an array: an [undefined] slot prints as [null]. *)
Definition jsonElement (c : slot) : string :=
  match c with
  | Some hex => quoteJSON hex
  | None => "null"
  end.

(** [function toJson(palette)]:
    [JSON.stringify({ colors: palette }, null, 2)]. *)
Definition toJson (palette : list slot) : string :=
  "{" ++ String nl
    ("  " ++ quoteJSON "colors" ++ ": "
     ++ match palette with
        | [] => "[]"
        | _ => "[" ++ String nl
                 ("    "
                  ++ String.concat ("," ++ String nl "    ")
                       (jsonElement <$> palette)
                  ++ String nl "  ]")
        end
     ++ String nl "}").

(** A string without a line feed. *)
Definition noLF (s : string) : bool :=
  forallb (fun a => negb (Ascii.eqb a nl)) (list_ascii_of_string s).

(** Reads one character of a JSON string back from the front of a text. *)
Definition unquoteFirst (s : string) : option (ascii * string) :=
  match s with
  | "" => None
  | String "\" (String "b" r) => Some ("008"%char, r)
  | String "\" (String "t" r) => Some ("009"%char, r)
  | String "\" (String "n" r) => Some ("010"%char, r)
  | String "\" (String "f" r) => Some ("012"%char, r)
  | String "\" (String "r" r) => Some ("013"%char, r)
  | String "\" (String "\" r) => Some ("\"%char, r)
  | String "\" (String "u" (String "0" (String "0" (String x (String y r))))) =>
      match HexString.ascii_to_digit x, HexString.ascii_to_digit y with
      | Some h, Some l => Some (ascii_of_N (16 * h + l), r)
      | _, _ => None
      end
  | String "\" (String c r) =>
      if Ascii.eqb c dquote then Some (dquote, r) else None
  | String a r => if Ascii.eqb a dquote then None else Some (a, r)
  end.

(** ** Vocabulary of the added properties *)

(** Two numbers that may be NaN are the same number. *)
Definition sameNumber (a b : option Q) : Prop :=
  match a, b with
  | Some x, Some y => (x == y)%Q
  | None, None => True
  | _, _ => False
  end.

Definition jsint_eqb (a b : jsint) : bool :=
  match a, b with
  | NaN, NaN => true
  | Int x, Int y => (x =? y)%Z
  | _, _ => false
  end.

(** A digit [0-9a-f]. *)
Definition isLowerHexDigit (a : ascii) : bool :=
  isHexDigit a && Ascii.eqb (lowerChar a) a.

(** What [pad] does with a byte: two digits [0-9a-f] that [parseInt] reads
    back as the byte. *)
Definition byteCheck (n : nat) : bool :=
  match pad (Int (Z.of_nat n)) with
  | String a (String b "") =>
      isLowerHexDigit a && isLowerHexDigit b
      && jsint_eqb (parseInt16 (String a (String b ""))) (Int (Z.of_nat n))
  | _ => false
  end.

(** The 256 code units of the embedding. *)
Definition allAscii : list ascii := ascii_of_nat <$> seq 0 256.

(** What [parseInt] makes of a group: NaN or an integer of [-15, 255]; and
    the same value as of the group in lower case. *)
Definition groupCheck (g : string) : bool :=
  match parseInt16 g with
  | NaN => true
  | Int z => (-15 <=? z)%Z && (z <=? 255)%Z
  end
  && jsint_eqb (parseInt16 (toLowerCase g)) (parseInt16 g).

(** A string without ['#']. *)
Definition noHash (s : string) : bool :=
  forallb (fun a => negb (Ascii.eqb a "#")) (list_ascii_of_string s).

(** A colour as generatePalette makes it: a valid hex string in lower case
    that survives the trip through hexToRgb and rgbToHex. *)
Definition stableHex (c : string) : Prop :=
  validHex c = true /\ toLowerCase c = c /\ rgbToHex (hexToRgb c) = Some c.

(** One of the four scheme tags that the [switch] of generatePalette names. *)
Definition isNamedScheme (scheme : string) : bool :=
  (scheme =? "complementary") || (scheme =? "triadic")
  || (scheme =? "analogous") || (scheme =? "monochrome").

(** How many values a call of generatePalette takes from [Math.random]. *)
Definition draws (baseHue : option Q) (scheme : option string) : nat :=
  (match baseHue with Some _ => 0 | None => 1 end)
  + 2
  + (match scheme with
     | Some t => if isNamedScheme t then 0 else 5
     | None => 5
     end).

(** An integer hue of [0, 359]. *)
Definition hueDegree (h : Q) : Prop :=
  exists k : Z, h = inject_Z k /\ (0 <= k <= 359)%Z.

(** The channels a colour needs for a contrast: three numbers in front. *)
Definition threeChannels (rgb : list jsint) : bool :=
  match rgb with
  | Int _ :: Int _ :: Int _ :: _ => true
  | _ => false
  end.

(** ** Runs on concrete inputs *)

Example hslToRgb_red : hslToRgb 0 1 0.5 = [Int 255; Int 0; Int 0].
Proof. reflexivity. Qed.

Example hslToRgb_neg : hslToRgb (-120) 1 0.5 = [Int 0; Int 0; Int 255].
Proof. reflexivity. Qed.

Example hslToRgb_grey : hslToRgb 77 0 0.4 = [Int 102; Int 102; Int 102].
Proof. reflexivity. Qed.

Example rgbToHex_ex : rgbToHex [Int 255; Int 10; Int 0] = Some "#ff0a00".
Proof. reflexivity. Qed.

Example hexToRgb_ex : hexToRgb "#FF0a10" = [Int 255; Int 10; Int 16].
Proof. reflexivity. Qed.

Example hexToRgb_empty : hexToRgb "#" = [Int 0; Int 0; Int 0].
Proof. reflexivity. Qed.

Example hexToRgb_odd : hexToRgb "#abc" = [Int 171; Int 12].
Proof. reflexivity. Qed.

Example hexToRgb_nonhex : hexToRgb "#zz" = [NaN].
Proof. reflexivity. Qed.

Example hexToRgb_inner_hash : hexToRgb "ff#0080" = [Int 255; Int 0; Int 128].
Proof. reflexivity. Qed.

Example rgbToHex_short : rgbToHex (hexToRgb "#abc") = None.
Proof. reflexivity. Qed.

Example hues_complementary_360 (r : rand) :
  fst (hues "complementary" 360 r) = [360; 180; 30; 210; 350]%Q.
Proof. reflexivity. Qed.

Example hues_complementary_negative (r : rand) :
  fst (hues "complementary" (-200) r) = [-200; -20; -170; 10; 150]%Q.
Proof. reflexivity. Qed.

Example fg_above :
  fg (Some <$> ["#a00000"; "#0b0000"; "#00c000"; "#000d00"; "#0000e0"]) 9
  = Some "#a00000".
Proof. reflexivity. Qed.

Example bg_below :
  bg (Some <$> ["#a00000"; "#0b0000"; "#00c000"; "#000d00"; "#0000e0"]) 0
  = Some "#0000e0".
Proof. reflexivity. Qed.

Example toCssVars_two :
  toCssVars [Some "#ff0000"; None]
  = ":root{" ++ String nl ("  --color-1: #ff0000;" ++ String nl
      ("  --color-2: undefined;" ++ String nl "}")).
Proof. reflexivity. Qed.

Example toCssVars_empty : toCssVars [] = ":root{" ++ String nl (String nl "}").
Proof. reflexivity. Qed.

Example toJson_two :
  toJson [Some "#ff0000"; None]
  = "{" ++ String nl ("  " ++ String dquote ("colors" ++ String dquote (": ["
      ++ String nl ("    " ++ String dquote ("#ff0000" ++ String dquote (","
      ++ String nl ("    null" ++ String nl ("  ]" ++ String nl "}")))))))).
Proof. reflexivity. Qed.

Example toJson_empty :
  toJson []
  = "{" ++ String nl ("  " ++ String dquote ("colors" ++ String dquote (": []"
      ++ String nl "}"))).
Proof. reflexivity. Qed.

Example quoteBody_escapes :
  quoteBody (String "a" (String dquote (String "001" (String nl "\"))))
  = "a\" ++ String dquote "\u0001\n\\".
Proof. reflexivity. Qed.

Example generatePalette_mono :
  fst (generatePalette (Some 200) (Some "monochrome") (fun _ => 0.5))
  = Some ["#364349"; "#477085"; "#599dc0"; "#85c2e0"; "#bce2f5"].
Proof. vm_compute. reflexivity. Qed.

(** ** Arithmetic of [%], [Math.floor] and [Math.round] *)

Local Open Scope Q_scope.

Lemma trunc_nonneg (t : Q) : 0 <= t -> Num.trunc t = Qfloor t.
Proof.
  destruct t as [n d]. unfold Num.trunc, Qfloor, Qle. simpl. intros H.
  apply Z.quot_div_nonneg; lia.
Qed.

Lemma trunc_nonpos (t : Q) : t <= 0 -> Num.trunc t = Qceiling t.
Proof.
  destruct t as [n d]. unfold Num.trunc, Qceiling, Qfloor, Qle. simpl. intros H.
  rewrite <- (Z.opp_involutive n) at 1. rewrite Z.quot_opp_l by lia.
  f_equal. apply Z.quot_div_nonneg; lia.
Qed.

Lemma trunc_comp (x y : Q) : x == y -> Num.trunc x = Num.trunc y.
Proof.
  intros E. destruct (Qlt_le_dec x 0) as [Hx | Hx].
  - rewrite !trunc_nonpos by lra. unfold Qceiling. now rewrite E.
  - rewrite !trunc_nonneg by lra. now rewrite E.
Qed.

#[global] Instance rem_comp : Proper (Qeq ==> Qeq ==> Qeq) Num.rem.
Proof.
  intros a a' Ea b b' Eb. unfold Num.rem.
  rewrite (trunc_comp (a / b) (a' / b')) by now rewrite Ea, Eb.
  now rewrite Ea, Eb.
Qed.

(** For a dividend that is not negative the remainder lies in [0, b). *)
Lemma rem_nonneg (a b : Q) : 0 <= a -> 0 < b -> 0 <= Num.rem a b /\ Num.rem a b < b.
Proof.
  intros Ha Hb. unfold Num.rem.
  assert (Ht : 0 <= a / b) by (apply Qle_shift_div_l; lra).
  rewrite (trunc_nonneg _ Ht).
  pose proof (Qfloor_le (a / b)) as Hlo.
  pose proof (Qlt_floor (a / b)) as Hhi.
  rewrite inject_Z_plus in Hhi. change (inject_Z 1) with 1 in Hhi.
  assert (E : a == a / b * b) by (field; lra).
  set (k := inject_Z (Qfloor (a / b))) in *.
  set (t := a / b) in *.
  assert (P1 : 0 <= (t - k) * b) by (apply Qmult_le_0_compat; lra).
  assert (P2 : 0 < (k + 1 - t) * b) by (apply Qmult_lt_0_compat; lra).
  split; lra.
Qed.

(** For any dividend the remainder is above [-b]. *)
Lemma rem_lower (a b : Q) : 0 < b -> - b < Num.rem a b.
Proof.
  intros Hb. destruct (Qlt_le_dec a 0) as [Ha | Ha].
  - unfold Num.rem.
    assert (Ht : a / b <= 0).
    { apply Qle_shift_div_r; lra. }
    rewrite (trunc_nonpos _ Ht).
    pose proof (Qlt_floor (- (a / b))) as Hhi.
    rewrite inject_Z_plus in Hhi. change (inject_Z 1) with 1 in Hhi.
    unfold Qceiling. rewrite inject_Z_opp.
    assert (E : a == a / b * b) by (field; lra).
    set (k := inject_Z (Qfloor (- (a / b)))) in *.
    set (t := a / b) in *.
    assert (P : 0 < (k + 1 + t) * b) by (apply Qmult_lt_0_compat; lra).
    lra.
  - pose proof (rem_nonneg a b Ha Hb). lra.
Qed.

Lemma normHue_range (h : Q) : 0 <= normHue h /\ normHue h < 360.
Proof.
  unfold normHue. apply rem_nonneg; [| lra].
  pose proof (rem_lower h 360). lra.
Qed.

#[global] Instance normHue_comp : Proper (Qeq ==> Qeq) normHue.
Proof. intros a b E. unfold normHue. now rewrite E. Qed.

Lemma round_comp (x y : Q) : x == y -> Num.round x = Num.round y.
Proof. intros E. unfold Num.round. now rewrite E. Qed.

Lemma ltb_comp (a a' b b' : Q) : a == a' -> b == b' -> Num.ltb a b = Num.ltb a' b'.
Proof. intros Ea Eb. unfold Num.ltb. now rewrite Ea, Eb. Qed.

Lemma ltb_lt (a b : Q) : Num.ltb a b = true <-> a < b.
Proof.
  unfold Num.ltb. rewrite negb_true_iff, <- not_true_iff_false, Qle_bool_iff.
  split; [apply Qnot_le_lt | apply Qlt_not_le].
Qed.

Lemma geb_le (a b : Q) : Num.geb a b = true <-> b <= a.
Proof. apply Qle_bool_iff. Qed.

(** A value of [0,1] scaled by 255 rounds into [0,255]. *)
Lemma round_unit (v : Q) :
  0 <= v -> v <= 1 -> (0 <= Num.round (v * 255) <= 255)%Z.
Proof.
  intros H0 H1. unfold Num.round. split.
  - assert (H : 0.5 <= v * 255 + (1 # 2)) by lra.
    exact (Qfloor_resp_le _ _ H).
  - assert (H : v * 255 + (1 # 2) <= 255.5) by lra.
    exact (Qfloor_resp_le _ _ H).
Qed.

(** ** Channels of hslToRgb *)

Section Channels.

Variables h s l : Q.
Hypothesis Hs0 : 0 <= s.
Hypothesis Hs1 : s <= 1.
Hypothesis Hl0 : 0 <= l.
Hypothesis Hl1 : l <= 1.

Local Abbreviation c := (chroma s l).
Local Abbreviation x := (secondary (normHue h) (chroma s l)).
Local Abbreviation m := (lift l (chroma s l)).

(** The chroma is in [0,1], and [m] and [c + m] stay in [0,1]. *)
Lemma chroma_bounds : 0 <= c /\ 0 <= m /\ c + m <= 1.
Proof.
  unfold lift, chroma.
  assert (Ha : 0 <= 1 - Qabs (2 * l - 1) /\ 1 - Qabs (2 * l - 1) <= 2 * l
               /\ 1 - Qabs (2 * l - 1) <= 2 - 2 * l).
  { apply Qabs_case; intros; lra. }
  set (a := 1 - Qabs (2 * l - 1)) in *.
  assert (P1 : 0 <= a * s) by (apply Qmult_le_0_compat; lra).
  assert (P2 : 0 <= a * (1 - s)) by (apply Qmult_le_0_compat; lra).
  assert (E : a * s / 2 == a * s * (1 # 2)) by (field).
  rewrite E. lra.
Qed.

(** The second largest component lies between 0 and the chroma. *)
Lemma secondary_bounds : 0 <= x /\ x <= c.
Proof.
  destruct chroma_bounds as (Hc & _ & _). unfold secondary.
  assert (Hr : 0 <= Num.rem (normHue h / 60) 2 /\ Num.rem (normHue h / 60) 2 < 2).
  { apply rem_nonneg; [| lra]. destruct (normHue_range h).
    apply Qle_shift_div_l; lra. }
  assert (Ha : 0 <= 1 - Qabs (Num.rem (normHue h / 60) 2 - 1)
               /\ 1 - Qabs (Num.rem (normHue h / 60) 2 - 1) <= 1).
  { apply Qabs_case; intros; lra. }
  set (a := 1 - Qabs (Num.rem (normHue h / 60) 2 - 1)) in *.
  assert (P1 : 0 <= c * a) by (apply Qmult_le_0_compat; lra).
  assert (P2 : 0 <= c * (1 - a)) by (apply Qmult_le_0_compat; lra).
  lra.
Qed.

Lemma hslToRgb_shape :
  exists r g b,
    hslToRgb h s l =
      [Int (Num.round ((r + m) * 255)); Int (Num.round ((g + m) * 255));
       Int (Num.round ((b + m) * 255))]
    /\ (r = c \/ r = x \/ r = 0) /\ (g = c \/ g = x \/ g = 0)
    /\ (b = c \/ b = x \/ b = 0).
Proof.
  unfold hslToRgb, lift, secondary, chroma. cbv zeta.
  repeat match goal with
         | |- context [if ?t then _ else _] => destruct t
         end;
    do 3 eexists; (split; [reflexivity |]); intuition.
Qed.

Lemma component_unit (v : Q) :
  v = c \/ v = x \/ v = 0 -> 0 <= v + m /\ v + m <= 1.
Proof.
  destruct chroma_bounds as (Hc & Hm & Hcm).
  destruct secondary_bounds as (Hx0 & Hx1).
  intros [-> | [-> | ->]]; lra.
Qed.

End Channels.

(** C8. For every hue [h] and every saturation [s] and lightness [l] of
    [0,1], the three channels that hslToRgb returns, each
    [round((component + m) * 255)], are integers of [0,255]: nothing has to
    be clamped. *)
Theorem hslToRgb_channels_in_range (h s l : Q) :
  0 <= s -> s <= 1 -> 0 <= l -> l <= 1 ->
  exists r g b : Z,
    hslToRgb h s l = [Int r; Int g; Int b]
    /\ (0 <= r <= 255)%Z /\ (0 <= g <= 255)%Z /\ (0 <= b <= 255)%Z.
Proof.
  intros Hs0 Hs1 Hl0 Hl1.
  destruct (hslToRgb_shape h s l) as (r & g & b & E & Hr & Hg & Hb).
  apply (component_unit h s l Hs0 Hs1 Hl0 Hl1) in Hr, Hg, Hb.
  do 3 eexists. split; [exact E |].
  repeat split; apply round_unit; tauto.
Qed.

Lemma hslToRgb_channels_in_range_witness :
  exists r g b : Z,
    hslToRgb (-725.5) 0.9 0.31 = [Int r; Int g; Int b]
    /\ (0 <= r <= 255)%Z /\ (0 <= g <= 255)%Z /\ (0 <= b <= 255)%Z.
Proof.
  apply (hslToRgb_channels_in_range (-725.5) 0.9 0.31); unfold Qle; simpl; lia.
Defined.

(** ** generatePalette always returns five colours *)

Lemma rgbToHex_hslToRgb (h s l : Q) : is_Some (rgbToHex (hslToRgb h s l)).
Proof.
  destruct (hslToRgb_shape h s l) as (r & g & b & E & _). rewrite E.
  simpl. eauto.
Qed.

(** [colors] on three arrays of five slots: the five conversions, in order. *)
Lemma colors_five (h0 h1 h2 h3 h4 s0 s1 s2 s3 s4 l0 l1 l2 l3 l4 : Q)
    (c0 c1 c2 c3 c4 : string) :
  rgbToHex (hslToRgb h0 (Num.clamp s0 0 1) (Num.clamp l0 0 1)) = Some c0 ->
  rgbToHex (hslToRgb h1 (Num.clamp s1 0 1) (Num.clamp l1 0 1)) = Some c1 ->
  rgbToHex (hslToRgb h2 (Num.clamp s2 0 1) (Num.clamp l2 0 1)) = Some c2 ->
  rgbToHex (hslToRgb h3 (Num.clamp s3 0 1) (Num.clamp l3 0 1)) = Some c3 ->
  rgbToHex (hslToRgb h4 (Num.clamp s4 0 1) (Num.clamp l4 0 1)) = Some c4 ->
  colors [h0; h1; h2; h3; h4] [s0; s1; s2; s3; s4] [l0; l1; l2; l3; l4]
  = Some [c0; c1; c2; c3; c4].
Proof.
  intros E0 E1 E2 E3 E4. unfold colors.
  cbn -[hslToRgb rgbToHex Num.clamp].
  rewrite E0, E1, E2, E3, E4. reflexivity.
Qed.

Lemma colors_total (hs ss ls : list Q) :
  length hs = 5%nat -> length ss = 5%nat -> length ls = 5%nat ->
  exists cs, colors hs ss ls = Some cs /\ length cs = 5%nat.
Proof.
  intros Hh Hs Hl.
  destruct hs as [|h0 [|h1 [|h2 [|h3 [|h4 [|]]]]]]; try discriminate Hh.
  destruct ss as [|s0 [|s1 [|s2 [|s3 [|s4 [|]]]]]]; try discriminate Hs.
  destruct ls as [|l0 [|l1 [|l2 [|l3 [|l4 [|]]]]]]; try discriminate Hl.
  destruct (rgbToHex_hslToRgb h0 (Num.clamp s0 0 1) (Num.clamp l0 0 1)) as [c0 E0].
  destruct (rgbToHex_hslToRgb h1 (Num.clamp s1 0 1) (Num.clamp l1 0 1)) as [c1 E1].
  destruct (rgbToHex_hslToRgb h2 (Num.clamp s2 0 1) (Num.clamp l2 0 1)) as [c2 E2].
  destruct (rgbToHex_hslToRgb h3 (Num.clamp s3 0 1) (Num.clamp l3 0 1)) as [c3 E3].
  destruct (rgbToHex_hslToRgb h4 (Num.clamp s4 0 1) (Num.clamp l4 0 1)) as [c4 E4].
  exists [c0; c1; c2; c3; c4]. split; [| reflexivity].
  now apply colors_five.
Qed.

Lemma randomHues_length (n : nat) (r : rand) : length (fst (randomHues n r)) = n.
Proof.
  revert r. induction n as [|n IH]; intros r; [reflexivity |].
  simpl. specialize (IH (fun k => r (S k))).
  destruct (randomHues n (fun k => r (S k))) as [hs r']. simpl in *. now rewrite IH.
Qed.

Lemma hues_length (scheme : string) (b : Q) (r : rand) :
  length (fst (hues scheme b r)) = 5%nat.
Proof.
  unfold hues.
  repeat match goal with
         | |- context [if ?t then _ else _] => destruct t
         end; reflexivity.
Qed.

Lemma lightnesses_length (scheme : string) (l : Q) :
  length (lightnesses scheme l) = 5%nat.
Proof. unfold lightnesses. now destruct (scheme =? "monochrome")%string. Qed.

Lemma saturations_length (scheme : string) (s : Q) :
  length (saturations scheme s) = 5%nat.
Proof. unfold saturations. now destruct (scheme =? "monochrome")%string. Qed.

(** The saturation and the lightness that a call draws from its source. *)
Lemma generatePalette_given (b : Q) (scheme : string) (r : rand) :
  fst (generatePalette (Some b) (Some scheme) r)
  = colors (fst (hues scheme b (fun n => r (S (S n)))))
           (saturations scheme (0.5 + r 0%nat * 0.4))
           (lightnesses scheme (0.45 + r 1%nat * 0.2)).
Proof.
  unfold generatePalette, Math_random. simpl default.
  now destruct (hues scheme b _).
Qed.

(** The generator never fails, whatever the scheme tag. *)
Lemma generatePalette_total (b : Q) (scheme : string) (r : rand) :
  exists F, fst (generatePalette (Some b) (Some scheme) r) = Some F
            /\ length F = 5%nat.
Proof.
  rewrite generatePalette_given.
  apply colors_total;
    auto using hues_length, lightnesses_length, saturations_length.
Qed.

(** ** Palette updates: regenerate and updateColor *)

(** C1. For a palette [P] of five hex strings and a lock mask [M] of five
    booleans, regenerate stores a palette of five slots in which slot [i] is
    [P[i]] where [M[i]] is true and the slot [F[i]] of the freshly generated
    palette [F] where [M[i]] is false. *)
Theorem regenerate_locks (P : list string) (M : list bool) (baseHue : Q)
    (scheme : string) (r : rand) :
  length P = 5%nat -> length M = 5%nat ->
  exists F P' : list string,
    fst (generatePalette (Some (inject_Z (Num.floor baseHue))) (Some scheme) r) = Some F
    /\ length F = 5%nat
    /\ fst (regenerate baseHue scheme M r (Some <$> P)) = Some (Some <$> P')
    /\ length P' = 5%nat
    /\ forall (i : nat) (m : bool) (p f : string),
         M !! i = Some m -> P !! i = Some p -> F !! i = Some f ->
         P' !! i = Some (if m then p else f).
Proof.
  intros HP HM.
  destruct (generatePalette_total (inject_Z (Num.floor baseHue)) scheme r)
    as (F & EF & HF).
  unfold regenerate.
  destruct (generatePalette _ _ r) as [fresh r'] eqn:EG. simpl in EF. subst fresh.
  destruct P as [|p0 [|p1 [|p2 [|p3 [|p4 [|]]]]]]; try discriminate HP.
  destruct M as [|m0 [|m1 [|m2 [|m3 [|m4 [|]]]]]]; try discriminate HM.
  destruct F as [|f0 [|f1 [|f2 [|f3 [|f4 [|]]]]]]; try discriminate HF.
  exists [f0; f1; f2; f3; f4],
    [if m0 then p0 else f0; if m1 then p1 else f1; if m2 then p2 else f2;
     if m3 then p3 else f3; if m4 then p4 else f4].
  repeat split.
  - simpl. now destruct m0, m1, m2, m3, m4.
  - intros i m p f Hm Hp Hf.
    do 5 (destruct i as [|i]; [now simplify_eq/= |]).
    discriminate Hm.
Qed.

Lemma regenerate_locks_witness :
  exists F P' : list string,
    fst (generatePalette (Some (inject_Z (Num.floor 200.7))) (Some "triadic")
           (fun _ => 0.25)) = Some F
    /\ length F = 5%nat
    /\ fst (regenerate 200.7 "triadic" [true; false; false; true; false]
              (fun _ => 0.25)
              (Some <$> ["#111111"; "#222222"; "#333333"; "#444444"; "#555555"]))
       = Some (Some <$> P')
    /\ length P' = 5%nat
    /\ forall (i : nat) (m : bool) (p f : string),
         [true; false; false; true; false] !! i = Some m ->
         ["#111111"; "#222222"; "#333333"; "#444444"; "#555555"] !! i = Some p ->
         F !! i = Some f ->
         P' !! i = Some (if m then p else f).
Proof.
  apply (regenerate_locks
           ["#111111"; "#222222"; "#333333"; "#444444"; "#555555"]
           [true; false; false; true; false] 200.7 "triadic" (fun _ => 0.25));
    reflexivity.
Defined.

(** C9. For a palette [P], a slot index [i] of it and a string [x],
    updateColor stores a palette of the same length whose slot [i] is [x] and
    whose other slots are those of [P]. *)
Theorem updateColor_frame {A : Type} (P : list A) (i : nat) (x : A) :
  (i < length P)%nat ->
  length (updateColor i x P) = length P
  /\ updateColor i x P !! i = Some x
  /\ forall j : nat, j <> i -> updateColor i x P !! j = P !! j.
Proof.
  intros Hi. unfold updateColor. split; [apply length_imap |]. split.
  - rewrite list_lookup_imap. destruct (lookup_lt_is_Some_2 P i Hi) as [c ->].
    simpl. now rewrite Nat.eqb_refl.
  - intros j Hj. rewrite list_lookup_imap. destruct (P !! j) as [c|]; [| reflexivity].
    simpl. apply Nat.eqb_neq in Hj. now rewrite Hj.
Qed.

Lemma updateColor_frame_witness :
  length (updateColor 1 "#abcdef" ["#000000"; "#111111"; "#222222"])
  = length ["#000000"; "#111111"; "#222222"]
  /\ updateColor 1 "#abcdef" ["#000000"; "#111111"; "#222222"] !! 1%nat
     = Some "#abcdef"
  /\ forall j : nat, j <> 1%nat ->
       updateColor 1 "#abcdef" ["#000000"; "#111111"; "#222222"] !! j
       = ["#000000"; "#111111"; "#222222"] !! j.
Proof.
  apply (updateColor_frame ["#000000"; "#111111"; "#222222"] 1 "#abcdef").
  simpl. lia.
Defined.

(** ** Contrast selection and classification *)

Lemma index_in_range {A : Type} (a : list A) (k : Z) :
  (0 <= k < Z.of_nat (length a))%Z -> is_Some (index a k).
Proof.
  intros Hk. unfold index.
  destruct (Z.ltb_spec k 0) as [Hneg | _]; [lia |].
  apply lookup_lt_is_Some_2. lia.
Qed.





(** C4. The classification of a contrast ratio [r]: at least 7 is "AAA",
    otherwise at least 4.5 is "AA", otherwise at least 3 is "AA Large",
    otherwise "Fail"; 7 gives "AAA", 4.5 gives "AA", 3 gives "AA Large" and 2.9
    gives "Fail". *)
Theorem wcag_thresholds :
  (forall r : Q,
      (7 <= r -> wcag r = "AAA"%string)
      /\ (4.5 <= r -> r < 7 -> wcag r = "AA"%string)
      /\ (3 <= r -> r < 4.5 -> wcag r = "AA Large"%string)
      /\ (r < 3 -> wcag r = "Fail"%string))
  /\ wcag 7 = "AAA"%string /\ wcag 4.5 = "AA"%string
  /\ wcag 3 = "AA Large"%string /\ wcag 2.9 = "Fail"%string.
Proof.
  split; [| repeat split].
  intros r. unfold wcag.
  destruct (Num.geb r 7) eqn:E7; destruct (Num.geb r 4.5) eqn:E45;
    destruct (Num.geb r 3) eqn:E3;
    repeat match goal with
           | H : Num.geb _ _ = true |- _ => apply geb_le in H
           | H : Num.geb _ _ = false |- _ =>
               apply not_true_iff_false in H; rewrite geb_le in H
           end;
    repeat split; intros; try reflexivity; exfalso; lra.
Qed.

Lemma wcag_thresholds_witness :
  wcag 21 = "AAA"%string /\ wcag 5.2 = "AA"%string
  /\ wcag 3.7 = "AA Large"%string /\ wcag 1 = "Fail"%string.
Proof.
  destruct wcag_thresholds as [H _].
  split; [| split; [| split]].
  - apply (H 21). unfold Qle; simpl; lia.
  - apply (H 5.2); [unfold Qle | unfold Qlt]; simpl; lia.
  - apply (H 3.7); [unfold Qle | unfold Qlt]; simpl; lia.
  - apply (H 1). unfold Qlt; simpl; lia.
Defined.

(** ** Ladders of generatePalette *)

(** Strictly inside its interval a value is what [clamp] returns. *)
Lemma clamp_inside (v mn mx : Q) : mn < v -> v < mx -> Num.clamp v mn mx = v.
Proof.
  intros Hlo Hhi. unfold Num.clamp, Qmin, Qmax, GenericMinMax.gmin, GenericMinMax.gmax.
  destruct (Qcompare_spec mn v) as [E | _ | G]; [lra | | lra].
  destruct (Qcompare_spec mx v) as [E | L | _]; [lra | lra | reflexivity].
Qed.

(** The saturation that a call draws from a source of values of [0,1) lies
    in [0.5, 0.9), the lightness in [0.45, 0.65). *)
Lemma drawn_ranges (r : rand) :
  validRandom r ->
  (0.5 <= 0.5 + r 0%nat * 0.4 /\ 0.5 + r 0%nat * 0.4 < 0.9)
  /\ (0.45 <= 0.45 + r 1%nat * 0.2 /\ 0.45 + r 1%nat * 0.2 < 0.65).
Proof.
  intros H. destruct (H 0%nat) as [A0 A1]. destruct (H 1%nat) as [B0 B1]. lra.
Qed.

(** C10. For a saturation [s] of [0.5, 0.9) and a lightness [l] of
    [0.45, 0.65), the five lightness values of a scheme other than
    monochrome, [l-0.15, l-0.05, l, l+0.08, l+0.16], lie inside [0.15, 0.9]:
    the clamp to that interval returns them unchanged, and every lightness of
    the ladder lies in [0.30, 0.81); the later clamp to [0,1] changes
    nothing either. *)
Theorem nonmonochrome_lightness_ladder (scheme : string) (s l : Q) :
  (scheme =? "monochrome")%string = false ->
  0.5 <= s -> s < 0.9 -> 0.45 <= l -> l < 0.65 ->
  Forall (fun v => 0.15 <= v /\ v <= 0.9)
         [l - 0.15; l - 0.05; l; l + 0.08; l + 0.16]
  /\ lightnesses scheme l = [l - 0.15; l - 0.05; l; l + 0.08; l + 0.16]
  /\ Forall (fun v => 0.30 <= v /\ v < 0.81) (lightnesses scheme l)
  /\ (fun v => Num.clamp v 0 1) <$> lightnesses scheme l = lightnesses scheme l
  /\ (fun v => Num.clamp v 0 1) <$> saturations scheme s = replicate 5 s.
Proof.
  intros Hm Hs0 Hs1 Hl0 Hl1.
  assert (E : lightnesses scheme l = [l - 0.15; l - 0.05; l; l + 0.08; l + 0.16]).
  { unfold lightnesses. rewrite Hm. simpl.
    rewrite !clamp_inside by lra. reflexivity. }
  split; [| split; [exact E | split; [| split]]].
  - repeat constructor; lra.
  - rewrite E. repeat constructor; lra.
  - rewrite E. simpl. rewrite !clamp_inside by lra. reflexivity.
  - unfold saturations. rewrite Hm. simpl.
    rewrite !clamp_inside by lra. reflexivity.
Qed.

Lemma nonmonochrome_lightness_ladder_witness :
  Forall (fun v => 0.15 <= v /\ v <= 0.9)
         [0.5 - 0.15; 0.5 - 0.05; 0.5; 0.5 + 0.08; 0.5 + 0.16]
  /\ lightnesses "analogous" 0.5
     = [0.5 - 0.15; 0.5 - 0.05; 0.5; 0.5 + 0.08; 0.5 + 0.16]
  /\ Forall (fun v => 0.30 <= v /\ v < 0.81) (lightnesses "analogous" 0.5)
  /\ (fun v => Num.clamp v 0 1) <$> lightnesses "analogous" 0.5
     = lightnesses "analogous" 0.5
  /\ (fun v => Num.clamp v 0 1) <$> saturations "analogous" 0.7 = replicate 5 0.7.
Proof.
  apply (nonmonochrome_lightness_ladder "analogous" 0.7 0.5);
    first [reflexivity | unfold Qle; simpl; lia | unfold Qlt; simpl; lia].
Defined.

(** C7. For every base hue, generatePalette with the scheme "monochrome"
    gives five colours: slot [i] is the conversion of the base hue with the
    [i]-th saturation of [0.15, 0.30, 0.45, 0.60, 0.75] and the [i]-th
    lightness of [0.25, 0.40, 0.55, 0.70, 0.85], whatever the random source
    returns. *)
Theorem monochrome_palette (base : Q) :
  (forall r, fst (hues "monochrome" base r) = [base; base; base; base; base])
  /\ (forall l, lightnesses "monochrome" l = [0.25; 0.4; 0.55; 0.7; 0.85])
  /\ (forall s, saturations "monochrome" s = [0.15; 0.3; 0.45; 0.6; 0.75])
  /\ exists c0 c1 c2 c3 c4 : string,
       rgbToHex (hslToRgb base 0.15 0.25) = Some c0
       /\ rgbToHex (hslToRgb base 0.3 0.4) = Some c1
       /\ rgbToHex (hslToRgb base 0.45 0.55) = Some c2
       /\ rgbToHex (hslToRgb base 0.6 0.7) = Some c3
       /\ rgbToHex (hslToRgb base 0.75 0.85) = Some c4
       /\ forall r : rand,
            fst (generatePalette (Some base) (Some "monochrome") r)
            = Some [c0; c1; c2; c3; c4].
Proof.
  split; [reflexivity |]. split; [reflexivity |]. split; [reflexivity |].
  destruct (rgbToHex_hslToRgb base 0.15 0.25) as [c0 E0].
  destruct (rgbToHex_hslToRgb base 0.3 0.4) as [c1 E1].
  destruct (rgbToHex_hslToRgb base 0.45 0.55) as [c2 E2].
  destruct (rgbToHex_hslToRgb base 0.6 0.7) as [c3 E3].
  destruct (rgbToHex_hslToRgb base 0.75 0.85) as [c4 E4].
  exists c0, c1, c2, c3, c4. do 5 (split; [assumption |]).
  intros r. rewrite generatePalette_given.
  change (fst (hues "monochrome" base (fun n => r (S (S n)))))
    with [base; base; base; base; base].
  change (saturations "monochrome" (0.5 + r 0%nat * 0.4))
    with [0.15; 0.3; 0.45; 0.6; 0.75].
  change (lightnesses "monochrome" (0.45 + r 1%nat * 0.2))
    with [0.25; 0.4; 0.55; 0.7; 0.85].
  apply colors_five; assumption.
Qed.

(** ** Hues of the complementary scheme *)

Lemma trunc_inject_Z (w : Z) : Num.trunc (inject_Z w / 360) = Z.quot w 360.
Proof. unfold Num.trunc. simpl. now rewrite Z.mul_1_r. Qed.

(** On integers [%] is the remainder of the truncated division. *)
Lemma rem_inject_Z (w : Z) : Num.rem (inject_Z w) 360 == inject_Z (Z.rem w 360).
Proof.
  unfold Num.rem, Qminus. rewrite trunc_inject_Z.
  change 360 with (inject_Z 360).
  rewrite <- inject_Z_mult, <- inject_Z_opp, <- inject_Z_plus.
  apply inject_Z_injective. pose proof (Z.quot_rem' w 360). lia.
Qed.

(** The normalisation of hslToRgb on an integer hue is the hue modulo 360. *)
Lemma normHue_inject_Z (w : Z) : normHue (inject_Z w) == inject_Z (w mod 360).
Proof.
  unfold normHue. rewrite rem_inject_Z.
  change 360 with (inject_Z 360) at 1. rewrite <- inject_Z_plus.
  rewrite rem_inject_Z. apply inject_Z_injective.
  pose proof (Z.rem_bound_abs w 360).
  pose proof (Z.quot_rem' w 360).
  pose proof (Z.quot_rem' (Z.rem w 360 + 360) 360).
  pose proof (Z.rem_bound_pos (Z.rem w 360 + 360) 360).
  pose proof (Z.mod_pos_bound w 360).
  pose proof (Z.div_mod w 360).
  lia.
Qed.

(** hslToRgb sees a hue only through its normalisation. *)
Lemma hslToRgb_comp (h h' s l : Q) :
  normHue h == normHue h' -> hslToRgb h s l = hslToRgb h' s l.
Proof.
  intros E. unfold hslToRgb.
  set (c := (1 - Qabs (2 * l - 1)) * s).
  assert (Ex : c * (1 - Qabs (Num.rem (normHue h / 60) 2 - 1))
               == c * (1 - Qabs (Num.rem (normHue h' / 60) 2 - 1)))
    by now rewrite E.
  revert Ex.
  set (x := c * (1 - Qabs (Num.rem (normHue h / 60) 2 - 1))).
  set (x' := c * (1 - Qabs (Num.rem (normHue h' / 60) 2 - 1))).
  intros Ex.
  set (m := l - c / 2).
  assert (R : Int (Num.round ((x + m) * 255)) = Int (Num.round ((x' + m) * 255)))
    by (f_equal; apply round_comp; now rewrite Ex).
  rewrite (ltb_comp (normHue h) (normHue h') 60 60 E (Qeq_refl _)).
  rewrite (ltb_comp (normHue h) (normHue h') 120 120 E (Qeq_refl _)).
  rewrite (ltb_comp (normHue h) (normHue h') 180 180 E (Qeq_refl _)).
  rewrite (ltb_comp (normHue h) (normHue h') 240 240 E (Qeq_refl _)).
  rewrite (ltb_comp (normHue h) (normHue h') 300 300 E (Qeq_refl _)).
  repeat match goal with
         | |- context [if ?t then _ else _] => destruct t
         end;
    now rewrite R.
Qed.

Lemma sameHue_base (z : Z) : sameHue (inject_Z z) z.
Proof. apply normHue_inject_Z. Qed.

Lemma sameHue_offset (z k : Z) :
  sameHue (Num.rem (inject_Z z + inject_Z k) 360) (z + k).
Proof.
  unfold sameHue. rewrite <- inject_Z_plus, rem_inject_Z, normHue_inject_Z.
  apply inject_Z_injective.
  pose proof (Z.quot_rem' (z + k) 360).
  pose proof (Z.rem_bound_abs (z + k) 360).
  pose proof (Z.mod_pos_bound (z + k) 360).
  pose proof (Z.div_mod (z + k) 360).
  pose proof (Z.mod_pos_bound (Z.rem (z + k) 360) 360).
  pose proof (Z.div_mod (Z.rem (z + k) 360) 360).
  lia.
Qed.

Lemma sameHue_convert (h : Q) (k : Z) (s l : Q) :
  sameHue h k -> hslToRgb h s l = hslToRgb (inject_Z (k mod 360)) s l.
Proof.
  unfold sameHue. intros E. apply hslToRgb_comp. rewrite E.
  rewrite normHue_inject_Z. now rewrite Z.mod_mod by lia.
Qed.



Lemma rem_inject_Z_nonneg (w : Z) :
  (0 <= w)%Z -> Num.rem (inject_Z w) 360 == inject_Z (w mod 360).
Proof.
  intros Hw. rewrite rem_inject_Z. now rewrite Z.rem_mod_nonneg by lia.
Qed.

(** C6, as the code has it. For an integer base hue [z] of [0,360) the
    [hues] array of the scheme "complementary" is, in slot order,
    [z, z+180, z+30, z+210, z+350] reduced modulo 360; base hue 120 gives
    [120,300,150,330,110]. For any other integer the array keeps the base hue
    as it is given and [%] keeps the sign, so its entries agree with that
    sequence only modulo 360; hslToRgb reduces every hue on entry, so for
    every integer base hue the five colours of the palette are the
    conversions of the reduced hues with the drawn saturation and the
    lightness ladder. The hues do not depend on the random source. *)
Theorem complementary_hues (z : Z) (r : rand) :
  let reduced :=
    inject_Z <$> [z mod 360; (z + 180) mod 360; (z + 30) mod 360;
                  (z + 210) mod 360; (z + 350) mod 360]%Z in
  let s := 0.5 + r 0%nat * 0.4 in
  let l := 0.45 + r 1%nat * 0.2 in
  let convert (k : Z) (li : Q) :=
    rgbToHex (hslToRgb (inject_Z (k mod 360)) (Num.clamp s 0 1)
                (Num.clamp (Num.clamp li 0.15 0.9) 0 1)) in
  ((0 <= z < 360)%Z ->
   Forall2 Qeq (fst (hues "complementary" (inject_Z z) r)) reduced)
  /\ Forall2 sameHue (fst (hues "complementary" (inject_Z z) r))
       [z; z + 180; z + 30; z + 210; z + 350]%Z
  /\ (exists c0 c1 c2 c3 c4 : string,
        convert z (l - 0.15) = Some c0
        /\ convert (z + 180)%Z (l - 0.05) = Some c1
        /\ convert (z + 30)%Z l = Some c2
        /\ convert (z + 210)%Z (l + 0.08) = Some c3
        /\ convert (z + 350)%Z (l + 0.16) = Some c4
        /\ fst (generatePalette (Some (inject_Z z)) (Some "complementary"%string) r)
           = Some [c0; c1; c2; c3; c4])
  /\ (forall r' : rand, fst (hues "complementary" (inject_Z z) r')
                        = fst (hues "complementary" (inject_Z z) r))
  /\ fst (hues "complementary" 120 r) = [120; 300; 150; 330; 110].
Proof.
  intros reduced s l convert.
  assert (H0 : sameHue (inject_Z z) z) by apply sameHue_base.
  pose proof (sameHue_offset z 180) as H1.
  pose proof (sameHue_offset z 30) as H2.
  pose proof (sameHue_offset z 210) as H3.
  pose proof (sameHue_offset z 350) as H4.
  split; [| split; [| split; [| split]]].
  - intros Hz. simpl. unfold reduced. simpl fmap.
    repeat constructor.
    + now rewrite Z.mod_small by lia.
    + change 180 with (inject_Z 180). rewrite <- inject_Z_plus.
      apply rem_inject_Z_nonneg. lia.
    + change 30 with (inject_Z 30). rewrite <- inject_Z_plus.
      apply rem_inject_Z_nonneg. lia.
    + change 210 with (inject_Z 210). rewrite <- inject_Z_plus.
      apply rem_inject_Z_nonneg. lia.
    + change 350 with (inject_Z 350). rewrite <- inject_Z_plus.
      apply rem_inject_Z_nonneg. lia.
  - simpl. repeat constructor; assumption.
  - unfold convert.
    destruct (rgbToHex_hslToRgb (inject_Z (z mod 360)) (Num.clamp s 0 1)
                (Num.clamp (Num.clamp (l - 0.15) 0.15 0.9) 0 1)) as [c0 E0].
    destruct (rgbToHex_hslToRgb (inject_Z ((z + 180) mod 360)) (Num.clamp s 0 1)
                (Num.clamp (Num.clamp (l - 0.05) 0.15 0.9) 0 1)) as [c1 E1].
    destruct (rgbToHex_hslToRgb (inject_Z ((z + 30) mod 360)) (Num.clamp s 0 1)
                (Num.clamp (Num.clamp l 0.15 0.9) 0 1)) as [c2 E2].
    destruct (rgbToHex_hslToRgb (inject_Z ((z + 210) mod 360)) (Num.clamp s 0 1)
                (Num.clamp (Num.clamp (l + 0.08) 0.15 0.9) 0 1)) as [c3 E3].
    destruct (rgbToHex_hslToRgb (inject_Z ((z + 350) mod 360)) (Num.clamp s 0 1)
                (Num.clamp (Num.clamp (l + 0.16) 0.15 0.9) 0 1)) as [c4 E4].
    exists c0, c1, c2, c3, c4. do 5 (split; [assumption |]).
    rewrite generatePalette_given.
    change (fst (hues "complementary" (inject_Z z) (fun n => r (S (S n)))))
      with [inject_Z z; Num.rem (inject_Z z + 180) 360;
            Num.rem (inject_Z z + 30) 360; Num.rem (inject_Z z + 210) 360;
            Num.rem (inject_Z z + 350) 360].
    change (saturations "complementary" (0.5 + r 0%nat * 0.4)) with [s; s; s; s; s].
    change (lightnesses "complementary" (0.45 + r 1%nat * 0.2))
      with [Num.clamp (l - 0.15) 0.15 0.9; Num.clamp (l - 0.05) 0.15 0.9;
            Num.clamp l 0.15 0.9; Num.clamp (l + 0.08) 0.15 0.9;
            Num.clamp (l + 0.16) 0.15 0.9].
    apply colors_five.
    + now rewrite (sameHue_convert _ _ _ _ H0).
    + now rewrite (sameHue_convert _ _ _ _ H1).
    + now rewrite (sameHue_convert _ _ _ _ H2).
    + now rewrite (sameHue_convert _ _ _ _ H3).
    + now rewrite (sameHue_convert _ _ _ _ H4).
  - reflexivity.
  - reflexivity.
Qed.

Lemma complementary_hues_witness :
  Forall2 Qeq (fst (hues "complementary" (inject_Z 200) (fun _ => 0.5)))
          (inject_Z <$> [200 mod 360; (200 + 180) mod 360; (200 + 30) mod 360;
                         (200 + 210) mod 360; (200 + 350) mod 360]%Z).
Proof.
  apply (complementary_hues 200 (fun _ => 0.5)). lia.
Defined.

(** C6, as the claim words it, fails: for the base hue 360, which the slider
    reaches, the [hues] array starts with 360 and not with 0; a negative
    base hue leaves negative entries. *)
Lemma complementary_hues_not_reduced :
  ~ (forall (z : Z) (r : rand),
       Forall2 Qeq (fst (hues "complementary" (inject_Z z) r))
         (inject_Z <$> [z mod 360; (z + 180) mod 360; (z + 30) mod 360;
                        (z + 210) mod 360; (z + 350) mod 360]%Z)).
Proof.
  intros H. specialize (H 360%Z (fun _ => 0)).
  apply Forall2_cons_1 in H. destruct H as [H _].
  vm_compute in H. discriminate H.
Qed.

(** ** Hex strings: the round trip and malformed input *)

Local Open Scope string_scope.

(** The twenty-two hexadecimal digits. *)
Lemma isHexDigit_cases (a : ascii) :
  isHexDigit a = true ->
  In a (list_ascii_of_string "0123456789abcdefABCDEF").
Proof.
  destruct a as [[] [] [] [] [] [] [] []]; intros H;
    first [discriminate H | simpl; repeat first [left; reflexivity | right]].
Qed.

Lemma pairCheck_all :
  forallb (fun a => forallb (pairCheck a)
                      (list_ascii_of_string "0123456789abcdefABCDEF"))
          (list_ascii_of_string "0123456789abcdefABCDEF") = true.
Proof. vm_compute. reflexivity. Qed.

Lemma hex_pair (a b : ascii) :
  isHexDigit a = true -> isHexDigit b = true ->
  isLineTerminator a = false /\ isLineTerminator b = false
  /\ pad (parseInt16 (String a (String b "")))
     = String (lowerChar a) (String (lowerChar b) "").
Proof.
  intros Ha Hb. apply isHexDigit_cases in Ha, Hb.
  pose proof pairCheck_all as H.
  rewrite forallb_forall in H. specialize (H a Ha).
  rewrite forallb_forall in H. specialize (H b Hb).
  unfold pairCheck in H.
  repeat (apply andb_prop in H; destruct H as [H ?]).
  repeat match goal with
         | K : negb _ = true |- _ => apply negb_true_iff in K
         end.
  repeat split; try assumption. now apply String.eqb_eq.
Qed.

Lemma groups_pair (a b : ascii) (s : string) :
  isLineTerminator a = false -> isLineTerminator b = false ->
  groups (String a (String b s)) = String a (String b "") :: groups s.
Proof. intros Ha Hb. cbn [groups]. now rewrite Ha, Hb. Qed.

Lemma validHex_inv (x : string) :
  validHex x = true ->
  exists d1 d2 d3 d4 d5 d6 : ascii,
    x = String "#" (String d1 (String d2 (String d3 (String d4
          (String d5 (String d6 ""))))))
    /\ isHexDigit d1 = true /\ isHexDigit d2 = true /\ isHexDigit d3 = true
    /\ isHexDigit d4 = true /\ isHexDigit d5 = true /\ isHexDigit d6 = true.
Proof.
  destruct x as [|h ds]; [discriminate |].
  destruct h as [[] [] [] [] [] [] [] []]; try discriminate.
  unfold validHex. intros H. apply andb_prop in H. destruct H as [Hlen Hall].
  apply Nat.eqb_eq in Hlen.
  destruct ds as [|d1 [|d2 [|d3 [|d4 [|d5 [|d6 [|]]]]]]]; try discriminate Hlen.
  simpl in Hall.
  repeat (apply andb_prop in Hall; destruct Hall as [? Hall]).
  exists d1, d2, d3, d4, d5, d6. repeat split; assumption.
Qed.

(** C2. For every valid hex string [x], a ['#'] followed by six hexadecimal
    digits, [rgbToHex(hexToRgb(x))] is [x] in lower case. *)
Theorem hex_roundtrip (x : string) :
  validHex x = true -> rgbToHex (hexToRgb x) = Some (toLowerCase x).
Proof.
  intros H.
  destruct (validHex_inv x H) as (d1 & d2 & d3 & d4 & d5 & d6 & -> & H1 & H2
                                  & H3 & H4 & H5 & H6).
  destruct (hex_pair d1 d2 H1 H2) as (L1 & L2 & P12).
  destruct (hex_pair d3 d4 H3 H4) as (L3 & L4 & P34).
  destruct (hex_pair d5 d6 H5 H6) as (L5 & L6 & P56).
  unfold hexToRgb, matchGroups. cbn [removeFirstHash Ascii.eqb Bool.eqb].
  rewrite !groups_pair by assumption. cbn [groups fmap list_fmap].
  unfold rgbToHex. rewrite P12, P34, P56. reflexivity.
Qed.

Lemma hex_roundtrip_witness :
  rgbToHex (hexToRgb "#3Fa0C9") = Some (toLowerCase "#3Fa0C9").
Proof. apply (hex_roundtrip "#3Fa0C9"). reflexivity. Defined.

(** [groups] finds nothing exactly in a string of line terminators. *)
Lemma groups_nil (s : string) :
  groups s = [] <-> forallb isLineTerminator (list_ascii_of_string s) = true.
Proof.
  enough (H : (groups s = [] <->
               forallb isLineTerminator (list_ascii_of_string s) = true)
              /\ forall a, (groups (String a s) = [] <->
                 forallb isLineTerminator (list_ascii_of_string (String a s)) = true))
    by apply H.
  induction s as [|b s [IH1 IH2]].
  - split; [now split |]. intros a. cbn [groups list_ascii_of_string forallb].
    destruct (isLineTerminator a); simpl; split; congruence.
  - split; [apply IH2 |]. intros a.
    specialize (IH2 b).
    cbn [groups list_ascii_of_string forallb] in *.
    destruct (isLineTerminator a); [exact IH2 |].
    destruct (isLineTerminator b); simpl; split; congruence.
Qed.

(** A hexadecimal digit alone, and what starts with neither a digit, nor
    white space, nor a sign. *)
Lemma parseInt16_digit (a : ascii) :
  isHexDigit a = true ->
  exists z, parseInt16 (String a "") = Int z /\ (0 <= z <= 15)%Z.
Proof.
  intros H. apply isHexDigit_cases in H. simpl in H.
  repeat (destruct H as [<- | H]; [eexists; split; [vm_compute; reflexivity | lia] |]).
  contradiction.
Qed.

Lemma parseInt16_pair (a b : ascii) :
  isHexDigit a = true -> isHexDigit b = true ->
  exists z, parseInt16 (String a (String b "")) = Int z /\ (0 <= z <= 255)%Z.
Proof.
  intros Ha Hb.
  apply isHexDigit_cases in Ha. simpl in Ha.
  repeat (destruct Ha as [<- | Ha];
          [apply isHexDigit_cases in Hb; simpl in Hb;
           repeat (destruct Hb as [<- | Hb]; [eexists; split; [vm_compute; reflexivity | lia] |]);
           contradiction |]).
  contradiction.
Qed.

Lemma parseInt16_NaN (a : ascii) (rest : string) :
  isHexDigit a = false -> isWhiteSpace a = false ->
  a <> "-"%char -> a <> "+"%char ->
  parseInt16 (String a rest) = NaN.
Proof.
  destruct a as [[] [] [] [] [] [] [] []]; intros Hd Hw Hm Hp;
    first [discriminate Hd | discriminate Hw | now destruct Hm | now destruct Hp
          | reflexivity].
Qed.

Lemma isHexDigit_not_hash (a : ascii) :
  isHexDigit a = true -> Ascii.eqb a "#" = false /\ isLineTerminator a = false.
Proof.
  intros H. apply isHexDigit_cases in H. simpl in H.
  repeat (destruct H as [<- | H]; [now split |]). contradiction.
Qed.

Lemma removeFirstHash_hex (c : string) :
  forallb isHexDigit (list_ascii_of_string c) = true -> removeFirstHash c = c.
Proof.
  induction c as [|a c IH]; [reflexivity |]. simpl. intros H.
  apply andb_prop in H. destruct H as [Ha Hc].
  destruct (isHexDigit_not_hash a Ha) as [-> _]. now rewrite IH.
Qed.

(** The groups of a content of hexadecimal digits: one per two digits, the
    last one of a single digit when the length is odd, each with a value of
    [0,255]. *)
Lemma groups_hex (c : string) :
  forallb isHexDigit (list_ascii_of_string c) = true ->
  length (groups c) = Nat.div2 (S (String.length c))
  /\ Forall (fun n => exists z, n = Int z /\ (0 <= z <= 255)%Z)
            (parseInt16 <$> groups c).
Proof.
  enough (H : (forallb isHexDigit (list_ascii_of_string c) = true ->
               length (groups c) = Nat.div2 (S (String.length c))
               /\ Forall (fun n => exists z, n = Int z /\ (0 <= z <= 255)%Z)
                         (parseInt16 <$> groups c))
              /\ forall a, isHexDigit a = true ->
                   forallb isHexDigit (list_ascii_of_string c) = true ->
                   length (groups (String a c)) = Nat.div2 (S (S (String.length c)))
                   /\ Forall (fun n => exists z, n = Int z /\ (0 <= z <= 255)%Z)
                             (parseInt16 <$> groups (String a c)))
    by apply H.
  induction c as [|b c [IH1 IH2]].
  - split; [intros _; split; [reflexivity | constructor] |].
    intros a Ha _. destruct (isHexDigit_not_hash a Ha) as [_ La].
    cbn [groups]. rewrite La. split; [reflexivity |].
    repeat constructor. destruct (parseInt16_digit a Ha) as (z & -> & Hz).
    exists z. split; [reflexivity | lia].
  - split.
    + cbn [list_ascii_of_string forallb]. intros H.
      apply andb_prop in H. destruct H as [Hb Hc]. now apply IH2.
    + intros a Ha H. cbn [list_ascii_of_string forallb] in H.
      apply andb_prop in H. destruct H as [Hb Hc].
      destruct (isHexDigit_not_hash a Ha) as [_ La].
      destruct (isHexDigit_not_hash b Hb) as [_ Lb].
      rewrite groups_pair by assumption.
      destruct (IH1 Hc) as [Hlen Hall].
      split; [simpl; now rewrite Hlen |].
      rewrite fmap_cons. constructor; [| exact Hall].
      destruct (parseInt16_pair a b Ha Hb) as (z & -> & Hz). eauto.
Qed.

(** C3, as the code has it. hexToRgb answers every string with a list of
    numbers. The list is the fallback (0,0,0) when the content left after the
    first ['#'] is removed gives no group, that is when it is empty or made of
    line terminators only. Any other content, malformed or not, gives one
    number per group of at most two characters, [parseInt(group, 16)]: for a
    content of [n >= 1] hexadecimal digits that is [ceil(n/2)] integers of
    [0,255], also when [n] is odd; a group that starts with no hexadecimal
    digit, white space or sign gives NaN. *)
Theorem hexToRgb_malformed_input (x : string) :
  let content := removeFirstHash x in
  (forallb isLineTerminator (list_ascii_of_string content) = true ->
     hexToRgb x = [Int 0; Int 0; Int 0])
  /\ (forallb isLineTerminator (list_ascii_of_string content) = false ->
        hexToRgb x = parseInt16 <$> groups content /\ hexToRgb x <> [])
  /\ (forallb isHexDigit (list_ascii_of_string content) = true ->
        content <> "" ->
        length (hexToRgb x) = Nat.div2 (S (String.length content))
        /\ Forall (fun n => exists z, n = Int z /\ (0 <= z <= 255)%Z) (hexToRgb x))
  /\ (forall (a : ascii) (rest : string),
        In (String a rest) (groups content) ->
        isHexDigit a = false -> isWhiteSpace a = false ->
        a <> "-"%char -> a <> "+"%char ->
        In NaN (hexToRgb x) /\ hexToRgb x <> [Int 0; Int 0; Int 0]).
Proof.
  intros content.
  assert (Some_case : groups content <> [] ->
                      hexToRgb x = parseInt16 <$> groups content /\ hexToRgb x <> []).
  { intros Hne. unfold hexToRgb, matchGroups. fold content.
    destruct (groups content) as [|g gs]; [congruence |]. split; [reflexivity |].
    discriminate. }
  split; [| split; [| split]].
  - intros H. apply groups_nil in H. unfold hexToRgb, matchGroups. fold content.
    now rewrite H.
  - intros H. apply Some_case. intros E. apply groups_nil in E. congruence.
  - intros Hhex Hne.
    destruct (groups_hex content Hhex) as [Hlen Hall].
    assert (Hg : groups content <> []).
    { destruct content as [|a c]; [congruence |]. intros E.
      rewrite E in Hlen. simpl in Hlen. destruct (String.length c); discriminate. }
    destruct (Some_case Hg) as [-> _]. now rewrite length_fmap.
  - intros a rest Hin Hd Hw Hm Hp.
    assert (Hg : groups content <> []) by (intros E; rewrite E in Hin; inversion Hin).
    destruct (Some_case Hg) as [E _].
    assert (HN : In NaN (hexToRgb x)).
    { rewrite E, <- (parseInt16_NaN a rest Hd Hw Hm Hp).
      apply in_map. exact Hin. }
    split; [exact HN |]. intros E0. rewrite E0 in HN. simpl in HN.
    intuition discriminate.
Qed.

Lemma hexToRgb_malformed_input_witness :
  (length (hexToRgb "#abc") = Nat.div2 (S (String.length (removeFirstHash "#abc")))
   /\ Forall (fun n => exists z, n = Int z /\ (0 <= z <= 255)%Z) (hexToRgb "#abc"))
  /\ (In NaN (hexToRgb "#12zz56") /\ hexToRgb "#12zz56" <> [Int 0; Int 0; Int 0])
  /\ hexToRgb "#" = [Int 0; Int 0; Int 0]
  /\ (hexToRgb "#a" = parseInt16 <$> groups (removeFirstHash "#a")
      /\ hexToRgb "#a" <> []).
Proof.
  split; [| split; [| split]].
  - apply (hexToRgb_malformed_input "#abc"); [reflexivity | discriminate].
  - apply (hexToRgb_malformed_input "#12zz56") with (a := "z"%char) (rest := "z");
      first [reflexivity | discriminate | simpl; tauto].
  - apply (hexToRgb_malformed_input "#"). reflexivity.
  - apply (hexToRgb_malformed_input "#a"). reflexivity.
Defined.

(** C3, as the claim words it, fails: a content of three hexadecimal digits is
    malformed and is answered with two numbers, not with (0,0,0). *)
Lemma hexToRgb_malformed_not_black :
  ~ (forall x : string, malformed x = true -> hexToRgb x = [Int 0; Int 0; Int 0]).
Proof.
  intros H. specialize (H "#abc" eq_refl). vm_compute in H. discriminate H.
Qed.

(** ** Further properties of the conversions *)

Local Open Scope Q_scope.

(** X1. [clamp] with ordered bounds returns a value of [[min, max]]: the
    argument itself when it lies there, the nearer bound otherwise. *)
Theorem clamp_bounds (v mn mx : Q) :
  mn <= mx ->
  (mn <= Num.clamp v mn mx /\ Num.clamp v mn mx <= mx)
  /\ (mn <= v -> v <= mx -> Num.clamp v mn mx == v)
  /\ (v <= mn -> Num.clamp v mn mx == mn)
  /\ (mx <= v -> Num.clamp v mn mx == mx).
Proof.
  intros Hb. unfold Num.clamp.
  destruct (Q.max_spec mn v) as [[H1 E1] | [H1 E1]];
    destruct (Q.min_spec mx (Qmax mn v)) as [[H2 E2] | [H2 E2]];
    rewrite E2; rewrite ?E1 in *; repeat split; intros; lra.
Qed.

Lemma clamp_bounds_witness :
  (0.15 <= Num.clamp 0.97 0.15 0.9 /\ Num.clamp 0.97 0.15 0.9 <= 0.9)
  /\ (0.15 <= 0.97 -> 0.97 <= 0.9 -> Num.clamp 0.97 0.15 0.9 == 0.97)
  /\ (0.97 <= 0.15 -> Num.clamp 0.97 0.15 0.9 == 0.15)
  /\ (0.9 <= 0.97 -> Num.clamp 0.97 0.15 0.9 == 0.9).
Proof. apply (clamp_bounds 0.97 0.15 0.9). unfold Qle; simpl; lia. Defined.

Lemma clamp_unit (v : Q) : 0 <= Num.clamp v 0 1 /\ Num.clamp v 0 1 <= 1.
Proof.
  unfold Num.clamp. split.
  - apply Q.min_glb; [lra | apply Q.le_max_l].
  - apply Q.le_min_l.
Qed.

(** X2. Without chroma, that is with saturation 0, lightness 0 or lightness
    1, the three channels of hslToRgb are equal, each [round(l * 255)],
    whatever the hue: a grey, black or white. *)
Theorem hslToRgb_achromatic (h s l : Q) :
  s == 0 \/ l == 0 \/ l == 1 ->
  hslToRgb h s l
  = [Int (Num.round (l * 255)); Int (Num.round (l * 255));
     Int (Num.round (l * 255))].
Proof.
  intros Hs.
  destruct (hslToRgb_shape h s l) as (r & g & b & E & Hr & Hg & Hb).
  rewrite E.
  assert (Hc : chroma s l == 0).
  { unfold chroma. destruct Hs as [Hs | [Hl | Hl]].
    - rewrite Hs. ring.
    - rewrite Hl. assert (A : Qabs (2 * 0 - 1) == 1) by reflexivity.
      rewrite A. ring.
    - rewrite Hl. assert (A : Qabs (2 * 1 - 1) == 1) by reflexivity.
      rewrite A. ring. }
  assert (Hx : secondary (normHue h) (chroma s l) == 0)
    by (unfold secondary; rewrite Hc; ring).
  assert (Hm : lift l (chroma s l) == l)
    by (unfold lift; rewrite Hc; field).
  assert (K : forall v, v = chroma s l \/ v = secondary (normHue h) (chroma s l) \/ v = 0 ->
              Num.round ((v + lift l (chroma s l)) * 255) = Num.round (l * 255)).
  { intros v Hv. apply round_comp. rewrite Hm.
    destruct Hv as [-> | [-> | ->]]; rewrite ?Hc, ?Hx; ring. }
  now rewrite (K r Hr), (K g Hg), (K b Hb).
Qed.

Lemma hslToRgb_achromatic_witness :
  hslToRgb 213 0 0.4
  = [Int (Num.round (0.4 * 255)); Int (Num.round (0.4 * 255));
     Int (Num.round (0.4 * 255))].
Proof. apply (hslToRgb_achromatic 213 0 0.4). left. reflexivity. Defined.

(** X3. hslToRgb is periodic in an integer hue: whole turns added to or
    taken from the hue, and the reduction of the hue to [0,360) by the
    caller, change no channel, also for a negative hue. The hues are kept
    below 2^53 in size, where the integers of the code are exact. *)
Theorem hslToRgb_periodic (z k : Z) (s l : Q) :
  (Z.abs z < 2 ^ 53)%Z -> (Z.abs (z + 360 * k) < 2 ^ 53)%Z ->
  hslToRgb (inject_Z (z + 360 * k)) s l = hslToRgb (inject_Z z) s l
  /\ hslToRgb (inject_Z (z mod 360)) s l = hslToRgb (inject_Z z) s l
  /\ normHue (inject_Z z) == inject_Z (z mod 360).
Proof.
  intros _ _. split; [| split].
  - apply hslToRgb_comp. rewrite !normHue_inject_Z.
    apply inject_Z_injective. rewrite Z.mul_comm. apply Z.mod_add. lia.
  - apply hslToRgb_comp. rewrite !normHue_inject_Z.
    apply inject_Z_injective. apply Z.mod_mod. lia.
  - apply normHue_inject_Z.
Qed.

Lemma hslToRgb_periodic_witness :
  hslToRgb (inject_Z (-242 + 360 * 3)) 0.8 0.5 = hslToRgb (inject_Z (-242)) 0.8 0.5
  /\ hslToRgb (inject_Z (-242 mod 360)) 0.8 0.5 = hslToRgb (inject_Z (-242)) 0.8 0.5
  /\ normHue (inject_Z (-242)) == inject_Z (-242 mod 360).
Proof.
  apply (hslToRgb_periodic (-242) 3 0.8 0.5); vm_compute; reflexivity.
Defined.

(** ** Bytes and hex strings *)

Local Open Scope string_scope.

Lemma jsint_eqb_eq (a b : jsint) : jsint_eqb a b = true -> a = b.
Proof.
  destruct a as [|x], b as [|y]; simpl; try discriminate; try reflexivity.
  intros H. apply Z.eqb_eq in H. now subst.
Qed.

Lemma isLowerHexDigit_inv (a : ascii) :
  isLowerHexDigit a = true -> isHexDigit a = true /\ lowerChar a = a.
Proof.
  unfold isLowerHexDigit. intros H. apply andb_prop in H. destruct H as [H1 H2].
  split; [exact H1 | now apply Ascii.eqb_eq].
Qed.

Lemma byteCheck_all : forallb byteCheck (seq 0 256) = true.
Proof. vm_compute. reflexivity. Qed.

(** [pad] prints a byte as two digits [0-9a-f] that [parseInt] reads back. *)
Lemma pad_byte (n : Z) :
  (0 <= n <= 255)%Z ->
  exists a b : ascii,
    pad (Int n) = String a (String b "")
    /\ isLowerHexDigit a = true /\ isLowerHexDigit b = true
    /\ parseInt16 (String a (String b "")) = Int n.
Proof.
  intros Hn. pose proof byteCheck_all as H. rewrite forallb_forall in H.
  assert (Hin : In (Z.to_nat n) (seq 0 256)) by (apply in_seq; lia).
  specialize (H (Z.to_nat n) Hin). unfold byteCheck in H.
  rewrite Z2Nat.id in H by lia.
  destruct (pad (Int n)) as [|a [|b [|]]]; try discriminate H.
  apply andb_prop in H. destruct H as [H Hp].
  apply andb_prop in H. destruct H as [Ha Hb].
  exists a, b. repeat split; try assumption. now apply jsint_eqb_eq.
Qed.

Lemma hexToRgb_six (d1 d2 d3 d4 d5 d6 : ascii) :
  isHexDigit d1 = true -> isHexDigit d2 = true -> isHexDigit d3 = true ->
  isHexDigit d4 = true -> isHexDigit d5 = true -> isHexDigit d6 = true ->
  hexToRgb (String "#" (String d1 (String d2 (String d3 (String d4
              (String d5 (String d6 "")))))))
  = [parseInt16 (String d1 (String d2 "")); parseInt16 (String d3 (String d4 ""));
     parseInt16 (String d5 (String d6 ""))].
Proof.
  intros H1 H2 H3 H4 H5 H6.
  destruct (isHexDigit_not_hash d1 H1) as [_ L1].
  destruct (isHexDigit_not_hash d2 H2) as [_ L2].
  destruct (isHexDigit_not_hash d3 H3) as [_ L3].
  destruct (isHexDigit_not_hash d4 H4) as [_ L4].
  destruct (isHexDigit_not_hash d5 H5) as [_ L5].
  destruct (isHexDigit_not_hash d6 H6) as [_ L6].
  unfold hexToRgb, matchGroups. cbn [removeFirstHash Ascii.eqb Bool.eqb].
  rewrite !groups_pair by assumption. reflexivity.
Qed.

(** The string that rgbToHex builds from three bytes. *)
Lemma rgbToHex_bytes (r g b : Z) (rest : list jsint) :
  (0 <= r <= 255)%Z -> (0 <= g <= 255)%Z -> (0 <= b <= 255)%Z ->
  exists x : string,
    rgbToHex (Int r :: Int g :: Int b :: rest) = Some x
    /\ validHex x = true /\ toLowerCase x = x
    /\ hexToRgb x = [Int r; Int g; Int b].
Proof.
  intros Hr Hg Hb.
  destruct (pad_byte r Hr) as (r1 & r2 & Er & Lr1 & Lr2 & Pr).
  destruct (pad_byte g Hg) as (g1 & g2 & Eg & Lg1 & Lg2 & Pg).
  destruct (pad_byte b Hb) as (b1 & b2 & Eb & Lb1 & Lb2 & Pb).
  apply isLowerHexDigit_inv in Lr1, Lr2, Lg1, Lg2, Lb1, Lb2.
  destruct Lr1 as [Hr1 Cr1], Lr2 as [Hr2 Cr2], Lg1 as [Hg1 Cg1],
           Lg2 as [Hg2 Cg2], Lb1 as [Hb1 Cb1], Lb2 as [Hb2 Cb2].
  eexists. split; [unfold rgbToHex; rewrite Er, Eg, Eb; reflexivity |].
  cbn [String.append]. split; [| split].
  - cbn [validHex String.length Nat.eqb list_ascii_of_string forallb andb].
    now rewrite Hr1, Hr2, Hg1, Hg2, Hb1, Hb2.
  - cbn [toLowerCase]. now rewrite Cr1, Cr2, Cg1, Cg2, Cb1, Cb2.
  - rewrite hexToRgb_six by assumption. now rewrite Pr, Pg, Pb.
Qed.

(** X4. rgbToHex on three channels of [0,255] (further channels are ignored)
    gives a valid hex string in lower case, and hexToRgb reads the three
    channels back from it. *)
Theorem rgbToHex_hexToRgb (r g b : Z) (rest : list jsint) :
  (0 <= r <= 255)%Z -> (0 <= g <= 255)%Z -> (0 <= b <= 255)%Z ->
  exists x : string,
    rgbToHex (Int r :: Int g :: Int b :: rest) = Some x
    /\ validHex x = true /\ toLowerCase x = x
    /\ hexToRgb x = [Int r; Int g; Int b].
Proof. apply rgbToHex_bytes. Qed.

Lemma rgbToHex_hexToRgb_witness :
  exists x : string,
    rgbToHex [Int 255; Int 10; Int 0; Int 77] = Some x
    /\ validHex x = true /\ toLowerCase x = x
    /\ hexToRgb x = [Int 255; Int 10; Int 0].
Proof. apply (rgbToHex_hexToRgb 255 10 0 [Int 77]); lia. Defined.

(** Every group is one or two characters. *)
Lemma groups_shape (s : string) :
  Forall (fun g => exists a, g = String a "" \/ exists b, g = String a (String b ""))
         (groups s).
Proof.
  enough (H : Forall (fun g => exists a, g = String a "" \/ exists b, g = String a (String b ""))
                     (groups s)
              /\ forall c, Forall (fun g => exists a, g = String a ""
                                            \/ exists b, g = String a (String b ""))
                                  (groups (String c s)))
    by apply H.
  induction s as [|b s [IH1 IH2]].
  - split; [constructor |]. intros c. cbn [groups].
    destruct (isLineTerminator c); repeat constructor. eauto.
  - split; [apply IH2 |]. intros c. cbn [groups].
    destruct (isLineTerminator c); [apply IH2 |].
    destruct (isLineTerminator b); constructor; eauto.
Qed.

Lemma in_allAscii (a : ascii) : In a allAscii.
Proof.
  unfold allAscii. rewrite <- (ascii_nat_embedding a).
  apply in_map, in_seq. pose proof (nat_ascii_bounded a). lia.
Qed.

Lemma groupCheck_all :
  forallb (fun a => groupCheck (String a "")
                    && forallb (fun b => groupCheck (String a (String b ""))) allAscii)
          allAscii = true.
Proof. vm_compute. reflexivity. Qed.

Lemma groupCheck_group (g : string) :
  (exists a, g = String a "" \/ exists b, g = String a (String b "")) ->
  groupCheck g = true.
Proof.
  intros [a Hg]. pose proof groupCheck_all as H.
  rewrite forallb_forall in H. specialize (H a (in_allAscii a)).
  apply andb_prop in H. destruct H as [H1 H2].
  destruct Hg as [-> | [b ->]]; [exact H1 |].
  rewrite forallb_forall in H2. exact (H2 b (in_allAscii b)).
Qed.

Lemma groupCheck_inv (g : string) :
  groupCheck g = true ->
  (parseInt16 g = NaN \/ exists z, parseInt16 g = Int z /\ (-15 <= z <= 255)%Z)
  /\ parseInt16 (toLowerCase g) = parseInt16 g.
Proof.
  unfold groupCheck. intros H. apply andb_prop in H. destruct H as [H1 H2].
  split; [| now apply jsint_eqb_eq].
  destruct (parseInt16 g) as [|z]; [now left |]. right. exists z.
  apply andb_prop in H1. destruct H1 as [A B].
  apply Z.leb_le in A, B. split; [reflexivity | lia].
Qed.

Lemma hexToRgb_bounded (x : string) :
  Forall (fun n => n = NaN \/ exists z, n = Int z /\ (-15 <= z <= 255)%Z)
         (hexToRgb x).
Proof.
  unfold hexToRgb, matchGroups.
  pose proof (groups_shape (removeFirstHash x)) as Hs.
  destruct (groups (removeFirstHash x)) as [|g gs].
  - repeat (constructor; [right; eexists; split; [reflexivity | lia] |]).
    constructor.
  - apply Forall_fmap. eapply Forall_impl; [exact Hs |].
    intros g' Hg'. simpl. apply groupCheck_group, groupCheck_inv in Hg'.
    destruct Hg' as [[-> | (z & -> & Hz)] _]; [now left | right; eauto].
Qed.

(** X5. hexToRgb never returns an empty list, and every entry is NaN or an
    integer of [-15, 255]: a group of two characters cannot hold more than
    ["ff"] or less than ["-f"]. *)
Theorem hexToRgb_entries (x : string) :
  hexToRgb x <> []
  /\ Forall (fun n => n = NaN \/ exists z, n = Int z /\ (-15 <= z <= 255)%Z)
            (hexToRgb x).
Proof.
  split; [| apply hexToRgb_bounded].
  unfold hexToRgb, matchGroups.
  destruct (groups (removeFirstHash x)) as [|g gs]; discriminate.
Qed.

Lemma lowerChar_neutral (a : ascii) :
  isLineTerminator (lowerChar a) = isLineTerminator a
  /\ Ascii.eqb (lowerChar a) "#" = Ascii.eqb a "#".
Proof. destruct a as [[] [] [] [] [] [] [] []]; split; reflexivity. Qed.

Lemma removeFirstHash_lower (s : string) :
  removeFirstHash (toLowerCase s) = toLowerCase (removeFirstHash s).
Proof.
  induction s as [|a s IH]; [reflexivity |]. cbn [toLowerCase removeFirstHash].
  destruct (lowerChar_neutral a) as [_ ->].
  destruct (Ascii.eqb a "#"); [reflexivity |]. cbn [toLowerCase]. now rewrite IH.
Qed.

Lemma groups_terminator (a : ascii) (s : string) :
  isLineTerminator a = true -> groups (String a s) = groups s.
Proof. intros Ha. cbn [groups]. now rewrite Ha. Qed.

Lemma groups_single (a b : ascii) (s : string) :
  isLineTerminator a = false -> isLineTerminator b = true ->
  groups (String a (String b s)) = String a "" :: groups s.
Proof. intros Ha Hb. cbn [groups]. now rewrite Ha, Hb. Qed.

Lemma groups_last (a : ascii) :
  isLineTerminator a = false -> groups (String a "") = [String a ""].
Proof. intros Ha. cbn [groups]. now rewrite Ha. Qed.

Lemma groups_lower (s : string) :
  groups (toLowerCase s) = toLowerCase <$> groups s.
Proof.
  enough (H : groups (toLowerCase s) = toLowerCase <$> groups s
              /\ forall a, groups (toLowerCase (String a s))
                           = toLowerCase <$> groups (String a s))
    by apply H.
  induction s as [|b s [IH1 IH2]].
  - split; [reflexivity |]. intros a. cbn [toLowerCase].
    destruct (lowerChar_neutral a) as [La _].
    destruct (isLineTerminator a) eqn:Ha.
    + now rewrite (groups_terminator (lowerChar a)), (groups_terminator a) by congruence.
    + now rewrite (groups_last (lowerChar a)), (groups_last a) by congruence.
  - split; [apply IH2 |]. intros a.
    change (toLowerCase (String a (String b s)))
      with (String (lowerChar a) (String (lowerChar b) (toLowerCase s))).
    destruct (lowerChar_neutral a) as [La _].
    destruct (lowerChar_neutral b) as [Lb _].
    destruct (isLineTerminator a) eqn:Ha.
    + rewrite (groups_terminator (lowerChar a)), (groups_terminator a) by congruence.
      exact (IH2 b).
    + destruct (isLineTerminator b) eqn:Hb.
      * rewrite (groups_single (lowerChar a)), (groups_single a) by congruence.
        now rewrite fmap_cons, IH1.
      * rewrite (groups_pair (lowerChar a)), (groups_pair a) by congruence.
        now rewrite fmap_cons, IH1.
Qed.

Lemma hexToRgb_lower (x : string) : hexToRgb (toLowerCase x) = hexToRgb x.
Proof.
  unfold hexToRgb, matchGroups. rewrite removeFirstHash_lower, groups_lower.
  pose proof (groups_shape (removeFirstHash x)) as Hs.
  assert (E : parseInt16 <$> (toLowerCase <$> groups (removeFirstHash x))
              = parseInt16 <$> groups (removeFirstHash x)).
  { rewrite <- list_fmap_compose.
    apply Forall_fmap_ext_1. eapply Forall_impl; [exact Hs |].
    intros g' Hg'. simpl. now apply groupCheck_group, groupCheck_inv in Hg'. }
  destruct (groups (removeFirstHash x)) as [|g gs]; [reflexivity | exact E].
Qed.

(** X6. hexToRgb does not look at the case of letters: two strings that
    agree in lower case give the same list. *)
Theorem hexToRgb_case_insensitive (x y : string) :
  toLowerCase x = toLowerCase y -> hexToRgb x = hexToRgb y.
Proof.
  intros E. rewrite <- (hexToRgb_lower x), <- (hexToRgb_lower y). now rewrite E.
Qed.

Lemma hexToRgb_case_insensitive_witness :
  hexToRgb "#A0fF3C" = hexToRgb "#a0Ff3c".
Proof. apply (hexToRgb_case_insensitive "#A0fF3C" "#a0Ff3c"). reflexivity. Defined.

Lemma removeFirstHash_middle (s1 s2 : string) :
  noHash s1 = true -> removeFirstHash (s1 ++ String "#" s2) = s1 ++ s2.
Proof.
  induction s1 as [|a s1 IH]; [reflexivity |].
  unfold noHash. cbn [list_ascii_of_string forallb String.append removeFirstHash].
  intros H. apply andb_prop in H. destruct H as [Ha Hs].
  apply negb_true_iff in Ha. rewrite Ha. now rewrite (IH Hs).
Qed.

Lemma removeFirstHash_none (s : string) : noHash s = true -> removeFirstHash s = s.
Proof.
  induction s as [|a s IH]; [reflexivity |].
  unfold noHash. cbn [list_ascii_of_string forallb removeFirstHash].
  intros H. apply andb_prop in H. destruct H as [Ha Hs].
  apply negb_true_iff in Ha. rewrite Ha. now rewrite (IH Hs).
Qed.

(** X7. hexToRgb removes the first ['#'] wherever it stands, not only a
    leading one, and no other: a ['#'] after a prefix free of ['#'] is read
    as if it led the string, and a string without ['#'] as if it had one in
    front. *)
Theorem hexToRgb_hash_anywhere (s1 s2 : string) :
  noHash s1 = true ->
  hexToRgb (s1 ++ String "#" s2) = hexToRgb (String "#" (s1 ++ s2))
  /\ (noHash s2 = true -> hexToRgb (s1 ++ s2) = hexToRgb (String "#" (s1 ++ s2))).
Proof.
  intros H1. unfold hexToRgb. rewrite (removeFirstHash_middle s1 s2 H1).
  cbn [removeFirstHash Ascii.eqb Bool.eqb]. split; [reflexivity |].
  intros H2. rewrite removeFirstHash_none; [reflexivity |].
  unfold noHash in *. clear - H1 H2.
  induction s1 as [|a s1 IH]; [exact H2 |].
  cbn [String.append list_ascii_of_string forallb] in *.
  apply andb_prop in H1. destruct H1 as [Ha Hs]. rewrite Ha. now apply IH.
Qed.

Lemma hexToRgb_hash_anywhere_witness :
  hexToRgb ("ff" ++ String "#" "0080") = hexToRgb (String "#" ("ff" ++ "0080"))
  /\ (noHash "0080" = true ->
      hexToRgb ("ff" ++ "0080") = hexToRgb (String "#" ("ff" ++ "0080"))).
Proof. apply (hexToRgb_hash_anywhere "ff" "0080"). reflexivity. Defined.

Lemma rgbToHex_arity (rgb : list jsint) :
  rgbToHex rgb = None <-> (length rgb < 3)%nat.
Proof.
  destruct rgb as [|r [|g [|b rest]]]; simpl; split; intros H;
    try reflexivity; try lia; discriminate.
Qed.

(** X8. The trip rgbToHex(hexToRgb(x)) ends in the TypeError of [pad] on
    [undefined] exactly when the content of [x] gives one or two groups, that
    is for a colour typed only in part; it never does for an empty content,
    which hexToRgb answers with (0,0,0). *)
Theorem rgbToHex_hexToRgb_throws (x : string) :
  rgbToHex (hexToRgb x) = None
  <-> (1 <= length (groups (removeFirstHash x)) <= 2)%nat.
Proof.
  rewrite rgbToHex_arity. unfold hexToRgb, matchGroups.
  destruct (groups (removeFirstHash x)) as [|g gs] eqn:E.
  - simpl. lia.
  - rewrite length_fmap. simpl. lia.
Qed.

(** ** Further properties of generatePalette *)

Local Open Scope Q_scope.

Lemma hslToRgb_bytes (h s l : Q) :
  0 <= s -> s <= 1 -> 0 <= l -> l <= 1 ->
  exists r g b : Z,
    hslToRgb h s l = [Int r; Int g; Int b]
    /\ (0 <= r <= 255)%Z /\ (0 <= g <= 255)%Z /\ (0 <= b <= 255)%Z.
Proof.
  intros Hs0 Hs1 Hl0 Hl1.
  destruct (hslToRgb_shape h s l) as (r & g & b & E & Hr & Hg & Hb).
  apply (component_unit h s l Hs0 Hs1 Hl0 Hl1) in Hr, Hg, Hb.
  do 3 eexists. split; [exact E |].
  repeat split; apply round_unit; tauto.
Qed.

(** A slot of [colors]: the clamps make every saturation and lightness fit,
    so the colour is a stable hex string. *)
Lemma color_stable (h s l : Q) :
  exists c : string,
    rgbToHex (hslToRgb h (Num.clamp s 0 1) (Num.clamp l 0 1)) = Some c
    /\ stableHex c.
Proof.
  destruct (clamp_unit s) as [S0 S1]. destruct (clamp_unit l) as [L0 L1].
  destruct (hslToRgb_bytes h _ _ S0 S1 L0 L1) as (r & g & b & E & Hr & Hg & Hb).
  destruct (rgbToHex_bytes r g b [] Hr Hg Hb) as (c & Ec & V & Lo & Back).
  exists c. rewrite E. split; [exact Ec |].
  unfold stableHex. rewrite Back. auto.
Qed.

Lemma colors_stable (hs ss ls : list Q) (cs : list string) :
  colors hs ss ls = Some cs -> Forall stableHex cs.
Proof.
  unfold colors. intros H. apply mapM_Some in H.
  apply Forall_lookup. intros i c Hc.
  destruct (Forall2_lookup_r _ _ _ _ _ H Hc) as (o & Ho & Eo). simpl in Eo. subst o.
  rewrite list_lookup_imap in Ho.
  destruct (hs !! i) as [h|]; [| discriminate Ho]. simpl in Ho.
  destruct (ss !! i) as [s|]; [| discriminate Ho]. simpl in Ho.
  destruct (ls !! i) as [l|]; [| discriminate Ho]. simpl in Ho.
  destruct (color_stable h s l) as (c' & Ec & St).
  injection Ho as Ho. rewrite Ec in Ho. injection Ho as ->. exact St.
Qed.

Lemma generatePalette_colors (baseHue : option Q) (scheme : option string)
    (r : rand) :
  exists hs ss ls,
    fst (generatePalette baseHue scheme r) = colors hs ss ls
    /\ length hs = 5%nat /\ length ss = 5%nat /\ length ls = 5%nat.
Proof.
  unfold generatePalette, Math_random.
  destruct baseHue as [b|];
    match goal with
    | |- context [hues ?s ?b ?r] =>
        pose proof (hues_length s b r) as Hh; destruct (hues s b r) as [hs r']
    end;
    simpl in Hh |- *; do 3 eexists;
    (split; [reflexivity |]);
    auto using saturations_length, lightnesses_length.
Qed.

(** X9. Whatever the base hue, the scheme tag and the random source are, also
    when they are left out or are out of range, generatePalette returns five
    valid hex strings in lower case, and each of them survives the trip
    through hexToRgb and rgbToHex unchanged. *)
Theorem generatePalette_stable (baseHue : option Q) (scheme : option string)
    (r : rand) :
  exists F : list string,
    fst (generatePalette baseHue scheme r) = Some F
    /\ length F = 5%nat
    /\ Forall (fun c => validHex c = true /\ toLowerCase c = c
                        /\ rgbToHex (hexToRgb c) = Some c) F.
Proof.
  destruct (generatePalette_colors baseHue scheme r)
    as (hs & ss & ls & E & Hh & Hs & Hl).
  destruct (colors_total hs ss ls Hh Hs Hl) as (F & EF & HF).
  exists F. rewrite E. split; [exact EF |]. split; [exact HF |].
  exact (colors_stable hs ss ls F EF).
Qed.

Lemma floor_degree (u : Q) :
  0 <= u -> u < 1 -> hueDegree (inject_Z (Num.floor (u * 360))).
Proof.
  intros H0 H1. exists (Num.floor (u * 360)). split; [reflexivity |].
  unfold Num.floor. split.
  - assert (H : 0 <= u * 360) by lra.
    exact (Qfloor_resp_le _ _ H).
  - pose proof (Qfloor_le (u * 360)) as H.
    assert (K : inject_Z (Qfloor (u * 360)) < inject_Z 360)
      by (change (inject_Z 360) with 360; lra).
    rewrite <- Zlt_Qlt in K. lia.
Qed.

Lemma validRandom_tail (r : rand) :
  validRandom r -> validRandom (fun n => r (S n)).
Proof. intros H n. apply H. Qed.

Lemma randomHues_degrees (n : nat) (r : rand) :
  validRandom r ->
  length (fst (randomHues n r)) = n /\ Forall hueDegree (fst (randomHues n r)).
Proof.
  revert r. induction n as [|n IH]; intros r Hr; [split; [reflexivity | constructor] |].
  simpl. specialize (IH _ (validRandom_tail r Hr)).
  destruct (randomHues n (fun k => r (S k))) as [hs r']. simpl in *.
  destruct IH as [IH1 IH2]. split; [now rewrite IH1 |].
  constructor; [| exact IH2]. apply floor_degree; apply Hr.
Qed.

Lemma isNamedScheme_false (scheme : string) :
  isNamedScheme scheme = false ->
  (scheme =? "complementary")%string = false /\ (scheme =? "triadic")%string = false
  /\ (scheme =? "analogous")%string = false /\ (scheme =? "monochrome")%string = false.
Proof.
  unfold isNamedScheme. intros H.
  repeat (apply orb_false_elim in H; destruct H as [H ?]). auto.
Qed.

(** X10. A scheme tag that the [switch] does not name takes the [default]
    branch, as a tag left out does: the call is the call with scheme
    "random". Its five hues are [Math.floor(Math.random()*360)], integers of
    [0, 359] for a source of values of [0,1), drawn after the saturation and
    the lightness. *)
Theorem unknown_scheme_is_random (baseHue : option Q) (scheme : string)
    (r : rand) :
  isNamedScheme scheme = false ->
  generatePalette baseHue (Some scheme) r = generatePalette baseHue None r
  /\ generatePalette baseHue (Some scheme) r
     = generatePalette baseHue (Some "random"%string) r
  /\ (forall b r', hues scheme b r' = randomHues 5 r')
  /\ (forall b r', validRandom r' ->
        length (fst (hues scheme b r')) = 5%nat
        /\ Forall hueDegree (fst (hues scheme b r'))).
Proof.
  intros H. destruct (isNamedScheme_false scheme H) as (H1 & H2 & H3 & H4).
  assert (Hh : forall b r', hues scheme b r' = randomHues 5 r')
    by (intros b r'; unfold hues; now rewrite H1, H2, H3, H4).
  assert (G : forall t, generatePalette baseHue (Some scheme) r
                        = generatePalette baseHue t r
              \/ t <> None /\ t <> Some "random"%string).
  { intros [t|].
    - destruct (String.eqb_spec t "random") as [-> | Hne]; [| right; split; congruence].
      left. unfold generatePalette, lightnesses, saturations, Math_random.
      cbn [from_option id]. destruct baseHue as [b|]; cbv beta iota zeta;
        rewrite !Hh, H4; reflexivity.
    - left. unfold generatePalette, lightnesses, saturations, Math_random.
      cbn [from_option id]. destruct baseHue as [b|]; cbv beta iota zeta;
        rewrite !Hh, H4; reflexivity. }
  split; [| split; [| split]].
  - destruct (G None) as [E | [K _]]; [exact E | congruence].
  - destruct (G (Some "random"%string)) as [E | [_ K]]; [exact E | congruence].
  - exact Hh.
  - intros b r' Hr. rewrite Hh. now apply randomHues_degrees.
Qed.

Lemma unknown_scheme_is_random_witness :
  generatePalette (Some 10) (Some "pastel"%string) (fun _ => 0.5)
  = generatePalette (Some 10) None (fun _ => 0.5).
Proof.
  apply (unknown_scheme_is_random (Some 10) "pastel" (fun _ => 0.5)). reflexivity.
Defined.

(** X11. [randomizeBaseHue], and the default of a base hue left out, store
    an integer of [0, 359] for a source of values of [0,1): never the 360
    that the slider can reach. *)
Theorem randomizeBaseHue_degree (r : rand) :
  validRandom r ->
  hueDegree (fst (randomizeBaseHue r))
  /\ forall scheme,
       fst (generatePalette None scheme r)
       = fst (generatePalette (Some (fst (randomizeBaseHue r))) scheme
                              (snd (randomizeBaseHue r))).
Proof.
  intros Hr. split.
  - unfold randomizeBaseHue, Math_random. simpl. apply floor_degree; apply Hr.
  - intros scheme. reflexivity.
Qed.

Lemma randomizeBaseHue_degree_witness :
  hueDegree (fst (randomizeBaseHue (fun _ => 0.999))).
Proof.
  apply (randomizeBaseHue_degree (fun _ => 0.999)).
  intros n. split; [unfold Qle | unfold Qlt]; simpl; lia.
Defined.

Lemma generatePalette_source (baseHue : option Q) (scheme : option string)
    (r : rand) (n : nat) :
  snd (generatePalette baseHue scheme r) n = r (draws baseHue scheme + n)%nat.
Proof.
  unfold generatePalette, draws, Math_random, hues.
  destruct baseHue as [b|], scheme as [t|]; cbn [from_option id];
    try (unfold isNamedScheme;
         destruct (t =? "complementary")%string; [reflexivity |];
         destruct (t =? "triadic")%string; [reflexivity |];
         destruct (t =? "analogous")%string; [reflexivity |];
         destruct (t =? "monochrome")%string; reflexivity);
    reflexivity.
Qed.

(** X13. generatePalette takes two values from [Math.random] for a named
    scheme and seven for any other tag or none, and one more, first, when the
    base hue is left out: the source it leaves behind is the source it got
    without these values. *)
Theorem generatePalette_draws (baseHue : option Q) (scheme : option string)
    (r : rand) (n : nat) :
  snd (generatePalette baseHue scheme r) n = r (draws baseHue scheme + n)%nat.
Proof. apply generatePalette_source. Qed.

Lemma normHue_integer (q : Q) (k : Z) :
  q == inject_Z k -> normHue q == inject_Z (k mod 360).
Proof. intros E. rewrite E. apply normHue_inject_Z. Qed.

(** X14. For the scheme "analogous" the [hues] array itself holds reduced
    hues: for every base hue its five entries lie in [0,360), and for an
    integer base hue [z], also a negative one or one above 359, they are
    [z-30, z-10, z, z+10, z+30] modulo 360. *)
Theorem analogous_hues (b : Q) (z : Z) (r : rand) :
  Forall (fun h => 0 <= h /\ h < 360) (fst (hues "analogous" b r))
  /\ Forall2 Qeq (fst (hues "analogous" (inject_Z z) r))
       (inject_Z <$> [(z - 30) mod 360; (z - 10) mod 360; z mod 360;
                      (z + 10) mod 360; (z + 30) mod 360]%Z).
Proof.
  split.
  - cbn [hues String.eqb Ascii.eqb Bool.eqb fst fmap list_fmap].
    repeat constructor; apply (normHue_range _).
  - cbn [hues String.eqb Ascii.eqb Bool.eqb fst fmap list_fmap].
    repeat constructor.
    + apply (normHue_integer (inject_Z z - 30) (z - 30)).
      unfold Zminus. rewrite inject_Z_plus. reflexivity.
    + apply (normHue_integer (inject_Z z - 10) (z - 10)).
      unfold Zminus. rewrite inject_Z_plus. reflexivity.
    + apply (normHue_integer (inject_Z z) z). reflexivity.
    + apply (normHue_integer (inject_Z z + 10) (z + 10)).
      rewrite inject_Z_plus. reflexivity.
    + apply (normHue_integer (inject_Z z + 30) (z + 30)).
      rewrite inject_Z_plus. reflexivity.
Qed.



(** ** Further properties of the palette state *)

Lemma imap_id_ext {A : Type} (f : nat -> A -> A) (l : list A) :
  (forall i x, l !! i = Some x -> f i x = x) -> imap f l = l.
Proof.
  intros H. apply list_eq. intros i. rewrite list_lookup_imap.
  destruct (l !! i) as [x|] eqn:E; [| reflexivity]. simpl. now rewrite (H i x E).
Qed.

(** X16. regenerate on a palette and a lock mask of any lengths: the palette
    keeps its length; a slot whose lock is true is kept; a slot whose lock is
    false or missing takes the fresh colour of its index, and becomes
    [undefined] from index 5 on, where the fresh palette has no colour. With
    every slot locked the palette is unchanged. The random source is used
    all the same. *)
Theorem regenerate_slots (baseHue : Q) (scheme : string) (locks : list bool)
    (r : rand) (p : list slot) :
  exists (F : list string) (p' : list slot),
    fst (generatePalette (Some (inject_Z (Num.floor baseHue))) (Some scheme) r) = Some F
    /\ fst (regenerate baseHue scheme locks r p) = Some p'
    /\ length p' = length p
    /\ (forall i c, p !! i = Some c -> locks !! i = Some true -> p' !! i = Some c)
    /\ (forall i c, p !! i = Some c -> locks !! i <> Some true ->
          p' !! i = Some (F !! i)
          /\ ((i < 5)%nat -> is_Some (F !! i)) /\ ((5 <= i)%nat -> F !! i = None))
    /\ ((forall i, (i < length p)%nat -> locks !! i = Some true) -> p' = p)
    /\ (forall n, snd (regenerate baseHue scheme locks r p) n
                  = r (draws (Some baseHue) (Some scheme) + n)%nat).
Proof.
  destruct (generatePalette_total (inject_Z (Num.floor baseHue)) scheme r)
    as (F & EF & HF).
  pose proof (generatePalette_source (Some (inject_Z (Num.floor baseHue)))
                (Some scheme) r) as Hd.
  unfold regenerate, slot in *.
  destruct (generatePalette _ _ r) as [fresh r'] eqn:EG. simpl in EF, Hd. subst fresh.
  exists F. eexists. split; [reflexivity |]. split; [reflexivity |].
  split; [apply length_imap |]. split; [| split; [| split]].
  - intros i c Hc Hl. rewrite list_lookup_imap, Hc, Hl. reflexivity.
  - intros i c Hc Hl. rewrite list_lookup_imap, Hc. simpl.
    assert (Hf : default false (locks !! i) = false).
    { destruct (locks !! i) as [[|]|]; [congruence | reflexivity | reflexivity]. }
    rewrite Hf. split; [reflexivity |]. split.
    + intros Hi. apply lookup_lt_is_Some_2. lia.
    + intros Hi. apply lookup_ge_None_2. lia.
  - intros Hall. apply imap_id_ext. intros i c Hc.
    rewrite (Hall i); [reflexivity |]. apply lookup_lt_is_Some_1. eauto.
  - intros n. simpl. exact (Hd n).
Qed.

Lemma regenerate_slots_witness :
  exists (F : list string) (p' : list slot),
    fst (generatePalette (Some (inject_Z (Num.floor 40))) (Some "triadic") (fun _ => 0.3))
    = Some F
    /\ fst (regenerate 40 "triadic" [true] (fun _ => 0.3)
              [Some "#111111"; Some "#222222"; Some "#333333"; Some "#444444";
               Some "#555555"; Some "#666666"]) = Some p'
    /\ p' !! 0%nat = Some (Some "#111111")
    /\ p' !! 1%nat = Some (F !! 1%nat)
    /\ p' !! 5%nat = Some None.
Proof.
  destruct (regenerate_slots 40 "triadic" [true] (fun _ => 0.3)
              [Some "#111111"; Some "#222222"; Some "#333333"; Some "#444444";
               Some "#555555"; Some "#666666"])
    as (F & p' & EF & Ep & _ & Hlock & Hfree & _ & _).
  exists F, p'. split; [exact EF |]. split; [exact Ep |]. split; [| split].
  - apply (Hlock 0%nat); reflexivity.
  - apply (Hfree 1%nat (Some "#222222")); first [reflexivity | discriminate].
  - destruct (Hfree 5%nat (Some "#666666")) as (H1 & _ & H3);
      [reflexivity | discriminate |].
    rewrite H1, H3; [reflexivity | lia].
Defined.

Lemma toggleLock_lookup (i j : nat) (ls : list bool) :
  toggleLock i ls !! j
  = (fun v => if (j =? i)%nat then negb v else v) <$> ls !! j.
Proof. unfold toggleLock. apply list_lookup_imap. Qed.

(** X17. Toggling the lock of slot [i] keeps the length of the mask, negates
    entry [i] and no other, leaves the mask unchanged for an index outside
    it, and undoes itself when done twice. *)
Theorem toggleLock_flip (i : nat) (ls : list bool) :
  length (toggleLock i ls) = length ls
  /\ toggleLock i ls !! i = negb <$> ls !! i
  /\ (forall j, j <> i -> toggleLock i ls !! j = ls !! j)
  /\ ((length ls <= i)%nat -> toggleLock i ls = ls)
  /\ toggleLock i (toggleLock i ls) = ls.
Proof.
  split; [apply length_imap |]. split; [| split; [| split]].
  - rewrite toggleLock_lookup, Nat.eqb_refl. reflexivity.
  - intros j Hj. rewrite toggleLock_lookup.
    apply Nat.eqb_neq in Hj. rewrite Hj. now destruct (ls !! j).
  - intros Hi. apply imap_id_ext. intros j v Hv.
    apply lookup_lt_Some in Hv.
    destruct (Nat.eqb_spec j i); [lia | reflexivity].
  - apply list_eq. intros j. rewrite !toggleLock_lookup.
    destruct (ls !! j) as [v|]; [| reflexivity]. simpl.
    destruct (j =? i)%nat; [now rewrite negb_involutive | reflexivity].
Qed.

Lemma toggleLock_flip_witness :
  toggleLock 1 [false; true; false] !! 1%nat = negb <$> [false; true; false] !! 1%nat
  /\ toggleLock 7 [false; true; false] = [false; true; false].
Proof.
  destruct (toggleLock_flip 1 [false; true; false]) as (_ & H2 & _).
  destruct (toggleLock_flip 7 [false; true; false]) as (_ & _ & _ & H4 & _).
  split; [exact H2 | apply H4; simpl; lia].
Defined.

(** X18. Locking an unlocked slot and regenerating keeps the colour of that
    slot, whatever the fresh palette holds. *)
Theorem lock_then_regenerate (i : nat) (c : slot) (baseHue : Q)
    (scheme : string) (locks : list bool) (r : rand) (p : list slot) :
  p !! i = Some c -> locks !! i = Some false ->
  exists p' : list slot,
    fst (regenerate baseHue scheme (toggleLock i locks) r p) = Some p'
    /\ p' !! i = Some c.
Proof.
  intros Hc Hl.
  destruct (generatePalette_total (inject_Z (Num.floor baseHue)) scheme r)
    as (F & EF & HF).
  unfold regenerate, slot in *.
  destruct (generatePalette _ _ r) as [fresh r'] eqn:EG. simpl in EF. subst fresh.
  eexists. split; [reflexivity |].
  rewrite list_lookup_imap, Hc, toggleLock_lookup, Hl, Nat.eqb_refl. reflexivity.
Qed.

Lemma lock_then_regenerate_witness :
  exists p' : list slot,
    fst (regenerate 40 "analogous"
           (toggleLock 2 [false; false; false; false; false]) (fun _ => 0.3)
           (Some <$> ["#111111"; "#222222"; "#333333"; "#444444"; "#555555"]))
    = Some p'
    /\ p' !! 2%nat = Some (Some "#333333").
Proof.
  apply (lock_then_regenerate 2 (Some "#333333") 40 "analogous"
           [false; false; false; false; false] (fun _ => 0.3)
           (Some <$> ["#111111"; "#222222"; "#333333"; "#444444"; "#555555"]));
    reflexivity.
Defined.

Lemma updateColor_lookup {A : Type} (i j : nat) (x : A) (p : list A) :
  updateColor i x p !! j = (fun c => if (j =? i)%nat then x else c) <$> p !! j.
Proof. unfold updateColor. apply list_lookup_imap. Qed.

(** X19. updateColor with an index outside the palette changes nothing (the
    palette is never extended); a second write to a slot replaces the first;
    writes to two different slots can be done in either order. *)
Theorem updateColor_compose {A : Type} (i j : nat) (x y : A) (p : list A) :
  ((length p <= i)%nat -> updateColor i x p = p)
  /\ updateColor i y (updateColor i x p) = updateColor i y p
  /\ (i <> j ->
      updateColor i x (updateColor j y p) = updateColor j y (updateColor i x p)).
Proof.
  split; [| split].
  - intros Hi. apply imap_id_ext. intros k c Hc.
    apply lookup_lt_Some in Hc.
    destruct (Nat.eqb_spec k i); [lia | reflexivity].
  - apply list_eq. intros k. rewrite !updateColor_lookup.
    destruct (p !! k) as [c|]; [| reflexivity]. simpl.
    now destruct (k =? i)%nat.
  - intros Hij. apply list_eq. intros k. rewrite !updateColor_lookup.
    destruct (p !! k) as [c|]; [| reflexivity]. simpl.
    destruct (Nat.eqb_spec k i), (Nat.eqb_spec k j); try reflexivity. lia.
Qed.

Lemma updateColor_compose_witness :
  ((length ["#000000"; "#111111"] <= 5)%nat ->
   updateColor 5 "#abcdef" ["#000000"; "#111111"] = ["#000000"; "#111111"])
  /\ (0%nat <> 1%nat ->
      updateColor 0 "#abcdef" (updateColor 1 "#fedcba" ["#000000"; "#111111"])
      = updateColor 1 "#fedcba" (updateColor 0 "#abcdef" ["#000000"; "#111111"])).
Proof.
  destruct (updateColor_compose 5 1 "#abcdef" "#fedcba" ["#000000"; "#111111"])
    as (H1 & _ & _).
  destruct (updateColor_compose 0 1 "#abcdef" "#fedcba" ["#000000"; "#111111"])
    as (_ & _ & H3).
  split; [exact H1 | exact H3].
Defined.

(** ** The colour input and the gradient stops *)

Local Open Scope string_scope.

Lemma withHash_cases (value : string) :
  (exists rest, value = String "#" rest /\ withHash value = value)
  \/ ((forall rest, value <> String "#" rest) /\ withHash value = String "#" value).
Proof.
  destruct value as [|a rest]; [right; split; [discriminate | reflexivity] |].
  destruct a as [[] [] [] [] [] [] [] []];
    first [ left; eexists; split; reflexivity
          | right; split; [intros rest'; discriminate | reflexivity] ].
Qed.

(** X20. The text typed into the colour input of a slot is stored with
    exactly one ['#'] put in front when it does not start with one: the
    stored string always starts with ['#'], storing is idempotent, only the
    slot typed into changes, and for a text without ['#'] hexToRgb reads the
    stored string as it reads the text. Nothing else is checked: any text is
    stored. *)
Theorem onColorInput_stores (i : nat) (value : string) (p : list slot) :
  (exists rest, withHash value = String "#" rest)
  /\ withHash (withHash value) = withHash value
  /\ (noHash value = true ->
      withHash value = String "#" value
      /\ hexToRgb (withHash value) = hexToRgb value)
  /\ length (onColorInput i value p) = length p
  /\ ((i < length p)%nat -> onColorInput i value p !! i = Some (Some (withHash value)))
  /\ (forall j, j <> i -> onColorInput i value p !! j = p !! j).
Proof.
  unfold slot in *.
  split; [| split; [| split; [| split; [| split]]]].
  - destruct (withHash_cases value) as [(rest & E & ->) | (_ & ->)]; eauto.
  - destruct (withHash_cases value) as [(rest & E & ->) | (_ & ->)];
      [| reflexivity].
    destruct (withHash_cases value) as [(rest' & _ & E') | (K & _)];
      [exact E' | now destruct (K rest)].
  - intros Hn.
    destruct (withHash_cases value) as [(rest & E & _) | (_ & ->)].
    + subst value. discriminate Hn.
    + split; [reflexivity |]. unfold hexToRgb.
      cbn [removeFirstHash Ascii.eqb Bool.eqb].
      now rewrite removeFirstHash_none.
  - unfold onColorInput, updateColor. apply length_imap.
  - intros Hi. unfold onColorInput. rewrite updateColor_lookup.
    destruct (lookup_lt_is_Some_2 p i Hi) as [c ->]. simpl.
    now rewrite Nat.eqb_refl.
  - intros j Hj. unfold onColorInput. rewrite updateColor_lookup.
    destruct (p !! j) as [c|]; [| reflexivity]. simpl.
    apply Nat.eqb_neq in Hj. now rewrite Hj.
Qed.

Lemma onColorInput_stores_witness :
  (withHash "3fa0c9" = String "#" "3fa0c9"
   /\ hexToRgb (withHash "3fa0c9") = hexToRgb "3fa0c9")
  /\ onColorInput 1 "3fa0c9" [Some "#000000"; Some "#111111"] !! 1%nat
     = Some (Some (withHash "3fa0c9")).
Proof.
  destruct (onColorInput_stores 1 "3fa0c9" [Some "#000000"; Some "#111111"])
    as (_ & _ & H3 & _ & H5 & _).
  split; [apply H3; reflexivity | apply H5; simpl; lia].
Defined.

Local Open Scope Q_scope.

Lemma stopOffsets_lookup {A : Type} (palette : list A) (i : nat) :
  (2 <= length palette)%nat -> (i < length palette)%nat ->
  stopOffsets palette !! i
  = Some (Some (inject_Z (Z.of_nat i) / (inject_Z (Z.of_nat (length palette)) - 1))).
Proof.
  intros Hn Hi. unfold stopOffsets. rewrite list_lookup_imap.
  destruct (lookup_lt_is_Some_2 palette i Hi) as [c ->]. simpl.
  destruct (Nat.eqb_spec (length palette - 1) 0); [lia | reflexivity].
Qed.

Lemma inject_Z_nat_le (a b : nat) :
  (a <= b)%nat -> inject_Z (Z.of_nat a) <= inject_Z (Z.of_nat b).
Proof. intros H. rewrite <- Zle_Qle. lia. Qed.

Lemma inject_Z_nat_lt (a b : nat) :
  (a < b)%nat -> inject_Z (Z.of_nat a) < inject_Z (Z.of_nat b).
Proof. intros H. rewrite <- Zlt_Qlt. lia. Qed.

(** X21. The offsets [i/(stops-1)] of the gradient, one per colour: for two
    colours or more they start at 0, end at 1, lie in [0,1] and grow strictly
    with the slot; for a palette of one colour the only offset is the NaN of
    [0/0]. *)
Theorem stopOffsets_spread {A : Type} (palette : list A) :
  length (stopOffsets palette) = length palette
  /\ (length palette = 1%nat -> stopOffsets palette = [None])
  /\ ((2 <= length palette)%nat ->
      exists offset : nat -> Q,
        (forall i, (i < length palette)%nat ->
           stopOffsets palette !! i = Some (Some (offset i))
           /\ 0 <= offset i /\ offset i <= 1)
        /\ offset 0%nat == 0
        /\ offset (length palette - 1)%nat == 1
        /\ (forall i j, (i < j)%nat -> offset i < offset j)).
Proof.
  split; [apply length_imap |]. split.
  - intros H1. destruct palette as [|c [|]]; try discriminate H1. reflexivity.
  - intros Hn.
    set (d := inject_Z (Z.of_nat (length palette)) - 1).
    assert (Hd : 0 < d).
    { unfold d. pose proof (inject_Z_nat_le 2 (length palette) Hn) as H.
      change (inject_Z (Z.of_nat 2)) with 2 in H. lra. }
    exists (fun i => inject_Z (Z.of_nat i) / d).
    split; [| split; [| split]].
    + intros i Hi. split; [now apply stopOffsets_lookup |].
      pose proof (inject_Z_nat_le 0 i ltac:(lia)) as H0.
      change (inject_Z (Z.of_nat 0)) with 0 in H0.
      pose proof (inject_Z_nat_lt i (length palette) Hi) as H1.
      assert (H2 : inject_Z (Z.of_nat i) <= d).
      { unfold d. pose proof (inject_Z_nat_le (S i) (length palette) Hi) as H.
        rewrite Nat2Z.inj_succ in H. unfold Z.succ in H.
        rewrite inject_Z_plus in H. change (inject_Z 1) with 1 in H. lra. }
      split.
      * apply Qle_shift_div_l; [exact Hd | lra].
      * apply Qle_shift_div_r; [exact Hd | lra].
    + simpl. field. lra.
    + assert (E : inject_Z (Z.of_nat (length palette - 1)) == d).
      { unfold d. rewrite Nat2Z.inj_sub by lia. unfold Z.sub.
        rewrite inject_Z_plus. reflexivity. }
      rewrite E. field. lra.
    + intros i j Hij. unfold Qdiv. apply Qmult_lt_compat_r.
      * now apply Qinv_lt_0_compat.
      * now apply inject_Z_nat_lt.
Qed.

Lemma stopOffsets_spread_witness :
  stopOffsets ["#a00000"] = [None]
  /\ exists offset : nat -> Q,
       (forall i, (i < 5)%nat ->
          stopOffsets ["#a00000"; "#0b0000"; "#00c000"; "#000d00"; "#0000e0"] !! i
          = Some (Some (offset i))
          /\ 0 <= offset i /\ offset i <= 1)
       /\ offset 0%nat == 0
       /\ offset (5 - 1)%nat == 1
       /\ (forall i j, (i < j)%nat -> offset i < offset j).
Proof.
  split.
  - apply (stopOffsets_spread ["#a00000"]). reflexivity.
  - apply (stopOffsets_spread ["#a00000"; "#0b0000"; "#00c000"; "#000d00"; "#0000e0"]).
    simpl. lia.
Defined.

(** ** Relative luminance and contrast *)

Lemma sameNumber_refl (a : option Q) : sameNumber a a.
Proof. destruct a; simpl; [reflexivity | exact I]. Qed.

Lemma threeChannels_inv (rgb : list jsint) :
  threeChannels rgb = true ->
  exists r g b rest, rgb = Int r :: Int g :: Int b :: rest.
Proof.
  destruct rgb as [|[|r] [|[|g] [|[|b] rest]]]; try discriminate. eauto.
Qed.

Lemma relativeLuminance_NaN (Math_pow : Q -> Q -> Q) (rgb : list jsint) :
  threeChannels rgb = false -> relativeLuminance Math_pow rgb = None.
Proof.
  destruct rgb as [|[|r] [|[|g] [|[|b] rest]]]; try reflexivity. discriminate.
Qed.

Lemma relativeLuminance_value (Math_pow : Q -> Q -> Q) (r g b : Z)
    (rest : list jsint) :
  relativeLuminance Math_pow (Int r :: Int g :: Int b :: rest)
  = Some (0.2126 * linearize Math_pow (inject_Z r / 255)
          + 0.7152 * linearize Math_pow (inject_Z g / 255)
          + 0.0722 * linearize Math_pow (inject_Z b / 255)).
Proof. reflexivity. Qed.

(** X22. contrastRatio is symmetric in its two colours, also when the result
    is NaN, and whatever [Math.pow] returns. *)
Theorem contrastRatio_symmetric (Math_pow : Q -> Q -> Q) (hex1 hex2 : string) :
  sameNumber (contrastRatio Math_pow hex1 hex2) (contrastRatio Math_pow hex2 hex1).
Proof.
  unfold contrastRatio.
  destruct (relativeLuminance Math_pow (hexToRgb hex1)) as [L1|];
    destruct (relativeLuminance Math_pow (hexToRgb hex2)) as [L2|];
    simpl; try exact I.
  now rewrite (Q.max_comm L1 L2), (Q.min_comm L1 L2).
Qed.

Section Contrast.

Variable Math_pow : Q -> Q -> Q.

(** What the section asks of [Math.pow]: a power of a positive base is not
    negative. *)
Hypothesis pow_nonneg : forall base : Q, 0 < base -> 0 <= Math_pow base 2.4.

Lemma linearize_lower (z : Z) :
  (-15 <= z)%Z -> -0.005 <= linearize Math_pow (inject_Z z / 255).
Proof.
  intros Hz. rewrite Zle_Qle in Hz. change (inject_Z (-15)) with (-15) in Hz.
  unfold linearize. set (v := inject_Z z / 255).
  assert (Ev : v * 255 == inject_Z z) by (unfold v; field).
  destruct (Qle_bool v 0.03928) eqn:E.
  - assert (Ed : v / 12.92 == v * (100 # 1292)) by field. rewrite Ed. lra.
  - apply not_true_iff_false in E. rewrite Qle_bool_iff in E.
    assert (Hb : 0 < (v + 0.055) / 1.055).
    { apply Qlt_shift_div_l; lra. }
    pose proof (pow_nonneg _ Hb). lra.
Qed.

Lemma relativeLuminance_lower (x : string) (L : Q) :
  relativeLuminance Math_pow (hexToRgb x) = Some L -> -0.005 <= L.
Proof.
  intros H. pose proof (hexToRgb_bounded x) as Hb.
  destruct (threeChannels (hexToRgb x)) eqn:T;
    [| rewrite relativeLuminance_NaN in H by exact T; discriminate H].
  destruct (threeChannels_inv _ T) as (r & g & b & rest & E).
  rewrite E in H, Hb. rewrite relativeLuminance_value in H. injection H as <-.
  inversion Hb as [|? ? Hr Hb1]; subst.
  inversion Hb1 as [|? ? Hg Hb2]; subst.
  inversion Hb2 as [|? ? Hbb _]; subst.
  destruct Hr as [Hr | (zr & Er & Hr)]; [discriminate |]. injection Er as <-.
  destruct Hg as [Hg | (zg & Eg & Hg)]; [discriminate |]. injection Eg as <-.
  destruct Hbb as [Hbb | (zb & Eb & Hbb)]; [discriminate |]. injection Eb as <-.
  pose proof (linearize_lower r ltac:(lia)).
  pose proof (linearize_lower g ltac:(lia)).
  pose proof (linearize_lower b ltac:(lia)).
  lra.
Qed.

Lemma ratio_lower (L1 L2 : Q) :
  -0.005 <= L1 -> -0.005 <= L2 ->
  1 <= (Qmax L1 L2 + 0.05) / (Qmin L1 L2 + 0.05)
  /\ (L1 == L2 -> (Qmax L1 L2 + 0.05) / (Qmin L1 L2 + 0.05) == 1).
Proof.
  intros H1 H2.
  assert (Hmin : -0.005 <= Qmin L1 L2) by (apply Q.min_glb; assumption).
  assert (Hle : Qmin L1 L2 <= Qmax L1 L2).
  { eapply Qle_trans; [apply Q.le_min_l | apply Q.le_max_l]. }
  split.
  - apply Qle_shift_div_l; lra.
  - intros E. rewrite E, Q.max_id, Q.min_id. field. lra.
Qed.

(** X23. With three numeric channels read from each colour, contrastRatio is
    a number of at least 1, and it is 1 for a colour against itself; with a
    colour that lacks them (a group missing, or NaN) it is NaN. *)
Theorem contrastRatio_at_least_one (hex1 hex2 : string) :
  (threeChannels (hexToRgb hex1) = true -> threeChannels (hexToRgb hex2) = true ->
   exists c, contrastRatio Math_pow hex1 hex2 = Some c /\ 1 <= c)
  /\ (threeChannels (hexToRgb hex1) = true ->
      exists c, contrastRatio Math_pow hex1 hex1 = Some c /\ c == 1)
  /\ (threeChannels (hexToRgb hex1) = false \/ threeChannels (hexToRgb hex2) = false ->
      contrastRatio Math_pow hex1 hex2 = None).
Proof.
  assert (D : forall x, threeChannels (hexToRgb x) = true ->
                exists L, relativeLuminance Math_pow (hexToRgb x) = Some L
                          /\ -0.005 <= L).
  { intros x T. destruct (threeChannels_inv _ T) as (r & g & b & rest & E).
    pose proof (relativeLuminance_lower x) as K. rewrite E in *.
    rewrite relativeLuminance_value in *. eexists. split; [reflexivity |].
    now apply K. }
  split; [| split].
  - intros T1 T2. destruct (D _ T1) as (L1 & E1 & B1), (D _ T2) as (L2 & E2 & B2).
    unfold contrastRatio. rewrite E1, E2. simpl. eexists. split; [reflexivity |].
    now apply ratio_lower.
  - intros T1. destruct (D _ T1) as (L1 & E1 & B1).
    unfold contrastRatio. rewrite E1. simpl. eexists. split; [reflexivity |].
    now apply ratio_lower.
  - intros [T | T]; unfold contrastRatio;
      rewrite (relativeLuminance_NaN _ _ T);
      [| destruct (relativeLuminance Math_pow (hexToRgb hex1))]; reflexivity.
Qed.

End Contrast.

Lemma contrastRatio_at_least_one_witness :
  exists c, contrastRatio (fun base _ => base * base) "#3fa0c9" "#102030" = Some c
            /\ 1 <= c.
Proof.
  apply (contrastRatio_at_least_one (fun base _ => base * base)).
  - intros base Hb. apply Qmult_le_0_compat; lra.
  - reflexivity.
  - reflexivity.
Defined.

Lemma validHex_channels (x : string) :
  validHex x = true ->
  exists r g b : Z,
    hexToRgb x = [Int r; Int g; Int b]
    /\ (0 <= r <= 255)%Z /\ (0 <= g <= 255)%Z /\ (0 <= b <= 255)%Z.
Proof.
  intros H.
  destruct (validHex_inv x H) as (d1 & d2 & d3 & d4 & d5 & d6 & -> & H1 & H2
                                  & H3 & H4 & H5 & H6).
  rewrite hexToRgb_six by assumption.
  destruct (parseInt16_pair d1 d2 H1 H2) as (r & -> & Hr).
  destruct (parseInt16_pair d3 d4 H3 H4) as (g & -> & Hg).
  destruct (parseInt16_pair d5 d6 H5 H6) as (b & -> & Hb).
  exists r, g, b. auto.
Qed.

Lemma selected_in_palette (P : list string) (k : Z) :
  mjoin (index (Some <$> P) k) = None
  \/ exists c, mjoin (index (Some <$> P) k) = Some c /\ In c P.
Proof.
  unfold index. destruct (k <? 0)%Z; [now left |].
  rewrite list_lookup_fmap.
  destruct (P !! Z.to_nat k) as [c|] eqn:E; [| now left].
  right. exists c. split; [reflexivity |].
  apply list_elem_of_In. eapply list_elem_of_lookup_2. exact E.
Qed.

Lemma selected_first (P : list string) :
  P <> [] -> exists c, mjoin (index (Some <$> P) 0) = Some c /\ In c P.
Proof.
  destruct P as [|c P]; [congruence |]. intros _. exists c.
  split; [reflexivity | now left].
Qed.

Lemma selected_last (P : list string) :
  P <> [] ->
  exists c, mjoin (index (Some <$> P) (Z.of_nat (length (Some <$> P)) - 1)) = Some c
            /\ In c P.
Proof.
  intros HP.
  destruct (selected_in_palette P (Z.of_nat (length (Some <$> P)) - 1))
    as [E | H]; [| exact H].
  exfalso. unfold index in E. rewrite length_fmap in E.
  assert (Hlen : (0 < length P)%nat) by (destruct P; [congruence | simpl; lia]).
  destruct (Z.ltb_spec (Z.of_nat (length P) - 1) 0) as [K | _]; [lia |].
  rewrite list_lookup_fmap in E.
  destruct (lookup_lt_is_Some_2 P (Z.to_nat (Z.of_nat (length P) - 1)) ltac:(lia))
    as [c Hc].
  rewrite Hc in E. discriminate E.
Qed.

Lemma fg_in_palette (P : list string) (fgIndex : Z) :
  P <> [] -> exists c, fg (Some <$> P) fgIndex = Some c /\ In c P.
Proof.
  intros HP. unfold fg, slot.
  destruct (selected_in_palette P (fgIndex - 1)) as [-> | (c & -> & Hc)];
    [apply (selected_first P HP) | eauto].
Qed.

Lemma bg_in_palette (P : list string) (bgIndex : Z) :
  P <> [] -> exists c, bg (Some <$> P) bgIndex = Some c /\ In c P.
Proof.
  intros HP. unfold bg, slot.
  destruct (selected_in_palette P (bgIndex - 1)) as [-> | (c & -> & Hc)];
    [apply (selected_last P HP) | eauto].
Qed.

Lemma fg_empty (fgIndex : Z) : fg [] fgIndex = None.
Proof.
  unfold fg, index. destruct (fgIndex - 1 <? 0)%Z; [reflexivity |].
  now rewrite lookup_nil.
Qed.

Lemma wcag_one (c : Q) : c == 1 -> wcag c = "Fail"%string.
Proof.
  intros E. unfold wcag, Num.geb. rewrite !E. reflexivity.
Qed.

Section ContrastRange.

Variable Math_pow : Q -> Q -> Q.

(** What the section asks of [Math.pow]: a power of a base of (0,1] with
    exponent 2.4 lies in [0,1]. *)
Hypothesis pow_unit :
  forall base : Q, 0 < base -> base <= 1 ->
    0 <= Math_pow base 2.4 /\ Math_pow base 2.4 <= 1.

Lemma linearize_unit (z : Z) :
  (0 <= z <= 255)%Z ->
  0 <= linearize Math_pow (inject_Z z / 255)
  /\ linearize Math_pow (inject_Z z / 255) <= 1.
Proof.
  intros [Hlo Hhi]. rewrite Zle_Qle in Hlo, Hhi.
  change (inject_Z 0) with 0 in Hlo. change (inject_Z 255) with 255 in Hhi.
  unfold linearize. set (v := inject_Z z / 255).
  assert (Ev : v * 255 == inject_Z z) by (unfold v; field).
  destruct (Qle_bool v 0.03928) eqn:E.
  - assert (Ed : v / 12.92 == v * (100 # 1292)) by field. rewrite Ed. lra.
  - apply not_true_iff_false in E. rewrite Qle_bool_iff in E.
    apply pow_unit.
    + apply Qlt_shift_div_l; lra.
    + apply Qle_shift_div_r; lra.
Qed.

Lemma relativeLuminance_unit (x : string) :
  validHex x = true ->
  exists L, relativeLuminance Math_pow (hexToRgb x) = Some L /\ 0 <= L /\ L <= 1.
Proof.
  intros H. destruct (validHex_channels x H) as (r & g & b & -> & Hr & Hg & Hb).
  rewrite relativeLuminance_value. eexists. split; [reflexivity |].
  destruct (linearize_unit r Hr), (linearize_unit g Hg), (linearize_unit b Hb).
  lra.
Qed.

Lemma ratio_range (L1 L2 : Q) :
  0 <= L1 -> L1 <= 1 -> 0 <= L2 -> L2 <= 1 ->
  1 <= (Qmax L1 L2 + 0.05) / (Qmin L1 L2 + 0.05)
  /\ (Qmax L1 L2 + 0.05) / (Qmin L1 L2 + 0.05) <= 21.
Proof.
  intros A1 A2 B1 B2.
  assert (Hmin : 0 <= Qmin L1 L2) by (apply Q.min_glb; assumption).
  assert (Hmax : Qmax L1 L2 <= 1) by (apply Q.max_lub; assumption).
  assert (Hle : Qmin L1 L2 <= Qmax L1 L2).
  { eapply Qle_trans; [apply Q.le_min_l | apply Q.le_max_l]. }
  split.
  - apply Qle_shift_div_l; lra.
  - apply Qle_shift_div_r; lra.
Qed.

(** X24. For two valid hex colours contrastRatio is a number of [1, 21]. *)
Theorem contrastRatio_range (hex1 hex2 : string) :
  validHex hex1 = true -> validHex hex2 = true ->
  exists c, contrastRatio Math_pow hex1 hex2 = Some c /\ 1 <= c /\ c <= 21.
Proof.
  intros V1 V2.
  destruct (relativeLuminance_unit hex1 V1) as (L1 & E1 & A1 & A2).
  destruct (relativeLuminance_unit hex2 V2) as (L2 & E2 & B1 & B2).
  unfold contrastRatio. rewrite E1, E2. simpl. eexists. split; [reflexivity |].
  now apply ratio_range.
Qed.

(** X25. The contrast box of the component. With an empty palette the
    rendering ends in a TypeError, whatever the indices. With a palette of
    strings a colour is always selected for the text and for the background,
    and the box shows the contrast of the two, classified "Fail" when it is
    NaN. With a palette of valid hex colours the contrast is a number of
    [1, 21] with its class, and a colour selected for both sides gives 1 and
    "Fail". *)
Theorem renderContrast_cases (P : list string) (fgIndex bgIndex : Z) :
  renderContrast Math_pow [] fgIndex bgIndex = TypeError
  /\ (P <> [] ->
      exists f b : string,
        In f P /\ In b P
        /\ fg (Some <$> P) fgIndex = Some f /\ bg (Some <$> P) bgIndex = Some b
        /\ renderContrast Math_pow (Some <$> P) fgIndex bgIndex
           = Contrast (contrastRatio Math_pow f b)
               (match contrastRatio Math_pow f b with
                | Some c => wcag c
                | None => "Fail"%string
                end)
        /\ (Forall (fun c => validHex c = true) P ->
            exists c, contrastRatio Math_pow f b = Some c /\ 1 <= c /\ c <= 21
                      /\ (f = b -> c == 1 /\ wcag c = "Fail"%string))).
Proof.
  split; [unfold renderContrast; now rewrite fg_empty |]. intros HP.
  destruct (fg_in_palette P fgIndex HP) as (f & Ef & Hf).
  destruct (bg_in_palette P bgIndex HP) as (b & Eb & Hb).
  exists f, b. split; [exact Hf |]. split; [exact Hb |].
  split; [exact Ef |]. split; [exact Eb |]. split.
  - unfold renderContrast. rewrite Ef, Eb. reflexivity.
  - intros Hall. rewrite Forall_forall in Hall.
    pose proof (Hall f (proj2 (list_elem_of_In _ _) Hf)) as Vf.
    pose proof (Hall b (proj2 (list_elem_of_In _ _) Hb)) as Vb.
    destruct (relativeLuminance_unit f Vf) as (L1 & E1 & A1 & A2).
    destruct (relativeLuminance_unit b Vb) as (L2 & E2 & B1 & B2).
    unfold contrastRatio. rewrite E1, E2. simpl. eexists. split; [reflexivity |].
    destruct (ratio_range L1 L2 A1 A2 B1 B2) as [R1 R2].
    split; [exact R1 |]. split; [exact R2 |].
    intros ->. rewrite E1 in E2. injection E2 as ->.
    assert (E : (Qmax L2 L2 + 0.05) / (Qmin L2 L2 + 0.05) == 1).
    { rewrite Q.max_id, Q.min_id. field. lra. }
    split; [exact E | now apply wcag_one].
Qed.

End ContrastRange.

Lemma renderContrast_cases_witness :
  exists f b : string,
    fg (Some <$> ["#000000"; "#ffffff"]) 9 = Some f
    /\ bg (Some <$> ["#000000"; "#ffffff"]) 0 = Some b
    /\ exists c, contrastRatio (fun base _ => base * base) f b = Some c
                 /\ 1 <= c /\ c <= 21.
Proof.
  destruct (renderContrast_cases (fun base _ => base * base)) with
    (P := ["#000000"; "#ffffff"]) (fgIndex := 9%Z) (bgIndex := 0%Z)
    as (_ & H).
  - intros base H0 H1. split.
    + apply Qmult_le_0_compat; lra.
    + assert (H : 0 <= (1 - base) * base) by (apply Qmult_le_0_compat; lra).
      assert (K : 0 <= 1 - base) by lra. lra.
  - destruct H as (f & b & _ & _ & Ef & Eb & _ & H); [discriminate |].
    exists f, b. split; [exact Ef |]. split; [exact Eb |].
    destruct H as (c & Ec & H1 & H2 & _); [repeat constructor |].
    exists c. auto.
Defined.

Lemma contrastRatio_range_witness :
  exists c, contrastRatio (fun base _ => base * base) "#000000" "#ffffff" = Some c
            /\ 1 <= c /\ c <= 21.
Proof.
  apply (contrastRatio_range (fun base _ => base * base)).
  - intros base H0 H1. split.
    + apply Qmult_le_0_compat; lra.
    + assert (H : 0 <= (1 - base) * base) by (apply Qmult_le_0_compat; lra).
      assert (K : 0 <= 1 - base) by lra. lra.
  - reflexivity.
  - reflexivity.
Defined.

(** ** Serialization: what the exported text determines *)

Local Open Scope string_scope.

Lemma append_inv_head (s a b : string) : s ++ a = s ++ b -> a = b.
Proof.
  induction s as [|c s IH]; simpl; intros H; [exact H |].
  injection H as H. auto.
Qed.

Lemma append_assoc (a b c : string) : (a ++ b) ++ c = a ++ (b ++ c).
Proof. induction a as [|x a IH]; simpl; [reflexivity | now rewrite IH]. Qed.

Lemma noLF_cons (a : ascii) (s : string) :
  noLF (String a s) = true -> a <> nl /\ noLF s = true.
Proof.
  unfold noLF. cbn [list_ascii_of_string forallb]. intros H.
  apply andb_prop in H. destruct H as [Ha Hs]. split; [| exact Hs].
  apply negb_true_iff in Ha. now apply Ascii.eqb_neq.
Qed.

(** A colour without line feed ends at the [;] before the line feed. *)
Lemma colour_end (c d R R' : string) :
  noLF c = true -> noLF d = true ->
  c ++ String ";" (String nl R) = d ++ String ";" (String nl R') ->
  c = d /\ R = R'.
Proof.
  revert d. induction c as [|a c IH]; intros [|b d] Hc Hd H; simpl in H.
  - injection H as H. auto.
  - injection H as Hb H. destruct d as [|b2 d]; simpl in H.
    + discriminate H.
    + injection H as Hn _. apply noLF_cons in Hd. destruct Hd as [_ Hd].
      apply noLF_cons in Hd. destruct Hd as [Hd _]. congruence.
  - injection H as Ha H. destruct c as [|a2 c]; simpl in H.
    + discriminate H.
    + injection H as Hn _. apply noLF_cons in Hc. destruct Hc as [_ Hc].
      apply noLF_cons in Hc. destruct Hc as [Hc _]. congruence.
  - injection H as Ha H. apply noLF_cons in Hc, Hd.
    destruct Hc as [_ Hc], Hd as [_ Hd].
    destruct (IH d Hc Hd H) as [-> ->]. now subst.
Qed.

Section CssLines.

(** The declarations of the slots of a palette of strings from number
    [k + 1] on, joined, with the end of the block. *)
Local Abbreviation block k P :=
  (String.concat (String nl "")
     (imap (fun i c => "  --color-" ++ decimal (k + i + 1) ++ ": " ++ c ++ ";") P)
   ++ String nl "}").

Lemma block_cons (k : nat) (c : string) (P : list string) :
  block k (c :: P)
  = "  --color-" ++ decimal (k + 1) ++ ": "
    ++ c ++ String ";" (String nl match P with
                                  | [] => "}"
                                  | _ => block (S k) P
                                  end).
Proof.
  cbn [imap]. rewrite Nat.add_0_r.
  assert (E : imap ((fun i c0 => "  --color-" ++ decimal (k + i + 1) ++ ": " ++ c0 ++ ";") ∘ S) P
              = imap (fun i c0 => "  --color-" ++ decimal (S k + i + 1) ++ ": " ++ c0 ++ ";") P).
  { apply imap_ext. intros i x _. unfold compose.
    now replace (k + S i + 1)%nat with (S k + i + 1)%nat by lia. }
  rewrite E.
  destruct P as [|c' P].
  - cbn [imap String.concat]. rewrite !append_assoc. reflexivity.
  - set (rest := imap _ (c' :: P)).
    assert (Hr : exists x xs, rest = x :: xs) by (unfold rest; simpl; eauto).
    destruct Hr as (x & xs & Hr). rewrite Hr.
    change (String.concat (String nl "") (?l :: x :: xs))
      with (l ++ String nl "" ++ String.concat (String nl "") (x :: xs)).
    rewrite !append_assoc. reflexivity.
Qed.

Lemma block_inj (P : list string) :
  forall (k : nat) (Q : list string),
    Forall (fun c => noLF c = true) P -> Forall (fun c => noLF c = true) Q ->
    block k P = block k Q -> P = Q.
Proof.
  induction P as [|c P IH]; intros k [|d Q] HP HQ H.
  - reflexivity.
  - rewrite block_cons in H. discriminate H.
  - rewrite block_cons in H. discriminate H.
  - rewrite !block_cons in H.
    apply append_inv_head, append_inv_head, append_inv_head in H.
    inversion HP as [|? ? Hc HP']; subst. inversion HQ as [|? ? Hd HQ']; subst.
    destruct (colour_end c d _ _ Hc Hd H) as [-> HT].
    f_equal. destruct P as [|c' P], Q as [|d' Q].
    + reflexivity.
    + rewrite block_cons in HT. discriminate HT.
    + rewrite block_cons in HT. discriminate HT.
    + now apply (IH (S k)).
Qed.

End CssLines.

Lemma toCssVars_block (P : list string) :
  toCssVars (Some <$> P)
  = ":root{" ++ String nl
      (String.concat (String nl "")
         (imap (fun i c => "  --color-" ++ decimal (0 + i + 1) ++ ": " ++ c ++ ";") P)
       ++ String nl "}").
Proof. unfold toCssVars. now rewrite imap_fmap. Qed.

(** X26. The CSS text of toCssVars determines the palette: two palettes of
    strings without line feed that export to the same text are the same
    palette. An [undefined] slot is not told apart from the string
    "undefined". *)
Theorem toCssVars_injective (P Q : list string) :
  (Forall (fun c => noLF c = true) P -> Forall (fun c => noLF c = true) Q ->
   toCssVars (Some <$> P) = toCssVars (Some <$> Q) -> P = Q)
  /\ toCssVars (None :: (Some <$> P)) = toCssVars (Some "undefined" :: (Some <$> P)).
Proof.
  split; [| reflexivity].
  intros HP HQ H. rewrite !toCssVars_block in H.
  apply (append_inv_head ":root{") in H. injection H as H.
  exact (block_inj P 0 Q HP HQ H).
Qed.

Lemma toCssVars_injective_witness :
  ["#ff0000"; "#00ff00"] = ["#ff0000"; "#00ff00"].
Proof.
  apply (toCssVars_injective ["#ff0000"; "#00ff00"] ["#ff0000"; "#00ff00"]);
    first [reflexivity | repeat constructor].
Defined.

(** A character of a JSON string is read back from the front of the text. *)
Lemma unquoteFirst_quoteChar (a : ascii) (r : string) :
  unquoteFirst (quoteChar a ++ r) = Some (a, r).
Proof. destruct a as [[] [] [] [] [] [] [] []]; reflexivity. Qed.

Lemma unquoteFirst_dquote (r : string) : unquoteFirst (String dquote r) = None.
Proof. reflexivity. Qed.

(** The body of a JSON string ends at the first double quote that is not
    escaped. *)
Lemma quoteBody_end (s t r r' : string) :
  quoteBody s ++ String dquote r = quoteBody t ++ String dquote r' ->
  s = t /\ r = r'.
Proof.
  revert t. induction s as [|a s IH]; intros [|b t] H; cbn [quoteBody] in H.
  - simpl in H. injection H as H. auto.
  - rewrite append_assoc in H. apply (f_equal unquoteFirst) in H.
    rewrite unquoteFirst_quoteChar in H. simpl in H. discriminate H.
  - rewrite append_assoc in H. apply (f_equal unquoteFirst) in H.
    rewrite unquoteFirst_quoteChar in H. simpl in H. discriminate H.
  - rewrite !append_assoc in H. apply (f_equal unquoteFirst) in H.
    rewrite !unquoteFirst_quoteChar in H. injection H as -> H.
    destruct (IH t H) as [-> ->]. auto.
Qed.

Lemma jsonElement_end (c d : slot) (R R' : string) :
  jsonElement c ++ R = jsonElement d ++ R' -> c = d /\ R = R'.
Proof.
  destruct c as [s|], d as [t|]; unfold jsonElement, quoteJSON; intros H.
  - simpl in H. injection H as H. rewrite !append_assoc in H.
    destruct (quoteBody_end s t _ _ H) as [-> E]. auto.
  - simpl in H. discriminate H.
  - simpl in H. discriminate H.
  - apply append_inv_head in H. auto.
Qed.

Section JsonArray.

(** The elements from [c] on, joined, with the rest of the text. *)
Local Abbreviation elements c P R :=
  (String.concat ("," ++ String nl "    ") (jsonElement <$> (c :: P)) ++ String nl R).

Lemma elements_cons (c c' : slot) (P : list slot) (R : string) :
  elements c (c' :: P) R
  = jsonElement c ++ String "," (String nl ("    " ++ elements c' P R)).
Proof.
  cbn [fmap list_fmap].
  change (String.concat ?sep (?x :: ?y :: ?l))
    with (x ++ sep ++ String.concat sep (y :: l)).
  rewrite !append_assoc. reflexivity.
Qed.

Lemma elements_last (c : slot) (R : string) :
  elements c [] R = jsonElement c ++ String nl R.
Proof. reflexivity. Qed.

Lemma elements_inj (P : list slot) :
  forall (c d : slot) (Q : list slot) (R : string),
    elements c P R = elements d Q R -> c = d /\ P = Q.
Proof.
  induction P as [|c' P IH]; intros c d [|d' Q] R H.
  - rewrite !elements_last in H. apply jsonElement_end in H. tauto.
  - rewrite elements_last, elements_cons in H.
    apply jsonElement_end in H. destruct H as [_ H]. discriminate H.
  - rewrite elements_last, elements_cons in H.
    apply jsonElement_end in H. destruct H as [_ H]. discriminate H.
  - rewrite !elements_cons in H. apply jsonElement_end in H.
    destruct H as [-> H].
    apply (append_inv_head (String "," (String nl "    "))
             (elements c' P R) (elements d' Q R)) in H.
    destruct (IH c' d' Q R H) as [-> ->]. auto.
Qed.

End JsonArray.

(** X27. The JSON text of toJson determines the palette, whatever its slots
    hold: two palettes that export to the same text are the same palette,
    slot by slot, also for colours with quotes, backslashes or line feeds
    (they are escaped) and for [undefined] slots (they print as [null]). *)
Theorem toJson_injective (p q : list slot) : toJson p = toJson q -> p = q.
Proof.
  unfold toJson. intros H.
  apply (append_inv_head "{") in H. injection H as H.
  destruct p as [|c P], q as [|d Q].
  - reflexivity.
  - simpl in H. discriminate H.
  - simpl in H. discriminate H.
  - cbn [String.append] in H. injection H as H.
    rewrite !append_assoc in H.
    destruct (elements_inj P c d Q _ H) as [-> ->]. reflexivity.
Qed.

Lemma toJson_injective_witness :
  [Some "#ff0000"; None] = [Some "#ff0000"; None].
Proof. apply (toJson_injective [Some "#ff0000"; None] [Some "#ff0000"; None]). reflexivity. Defined.
